(** * CryptoScan: a shallow embedding of [modules/CryptoScan.py]

    The plugin scans a binary for cryptographic constants in two ways: a
    single pass over the bytes of the address space ([run_data_constant_scans])
    and a comparison of the constants of the medium-level IL with chunks of
    the configured flag bytes ([run_il_constant_scans]).  The host (Binary
    Ninja) is modelled by the data it hands to the plugin: a binary view that
    answers byte reads, a reader cursor, the IL instruction trees and the
    cancellation flag of the background task. *)

From Stdlib Require Import ZArith List String Ascii Bool Lia.
From Stdlib Require Import Hexadecimal HexadecimalString HexadecimalZ.
From Stdlib Require Import Decimal DecimalString DecimalZ.
From Stdlib Require Import Sorted.
Import ListNotations.
Open Scope string_scope.
Open Scope list_scope.
Open Scope Z_scope.

(** ** Python values and exceptions *)

Module Py.

(** The exceptions the scanning code can meet. *)
Inductive exn : Type :=
| IndexError          (* [scan.flags[0]] on an empty list *)
| ValueError          (* [int(tok, 16)] on a token that is no number *)
| ZeroDivisionError   (* the progress percentage of an empty view *)
| AttributeError.     (* an attribute of [None], or one the object lacks *)

Inductive result (A : Type) : Type :=
| Ok (a : A)
| Raise (e : exn).
Arguments Ok {A} a.
Arguments Raise {A} e.

Definition rbind {A B} (r : result A) (k : A -> result B) : result B :=
  match r with
  | Ok a => k a
  | Raise e => Raise e
  end.

Definition of_option {A} (e : exn) (o : option A) : result A :=
  match o with
  | Some a => Ok a
  | None => Raise e
  end.

(** [for x in l: acc = body(x, acc)], stopping at the first exception. *)
Fixpoint for_each {A S} (l : list A) (body : A -> S -> result S) (acc : S)
  : result S :=
  match l with
  | [] => Ok acc
  | x :: l' => rbind (body x acc) (for_each l' body)
  end.

(** [[f(x) for x in l]] where [f] may raise. *)
Fixpoint map_result {A B} (f : A -> result B) (l : list A) : result (list B) :=
  match l with
  | [] => Ok []
  | x :: l' =>
      rbind (f x) (fun y => rbind (map_result f l') (fun ys => Ok (y :: ys)))
  end.

(** [range(n)]. *)
Definition range (n : Z) : list Z := map Z.of_nat (seq 0 (Z.to_nat n)).

(** [l[lo:hi]] for bounds that are not negative, the only ones the scanner
    uses: the slice is clipped to the list. *)
Definition slice {A} (l : list A) (lo hi : Z) : list A :=
  firstn (Z.to_nat hi - Z.to_nat lo) (skipn (Z.to_nat lo) l).

Definition len {A} (l : list A) : Z := Z.of_nat (List.length l).

(** Value of one hexadecimal digit, of either case. *)
Definition hex_digit (c : ascii) : option Z :=
  let n := Z.of_N (N_of_ascii c) in
  if (48 <=? n) && (n <=? 57) then Some (n - 48)
  else if (97 <=? n) && (n <=? 102) then Some (n - 87)
  else if (65 <=? n) && (n <=? 70) then Some (n - 55)
  else None.

Fixpoint hex_value (acc : Z) (s : string) : option Z :=
  match s with
  | EmptyString => Some acc
  | String c rest =>
      match hex_digit c with
      | Some d => hex_value (16 * acc + d) rest
      | None => None
      end
  end.

Definition strip_radix (s : string) : string :=
  match s with
  | String c (String c' rest) =>
      if ((c =? "0") && ((c' =? "x") || (c' =? "X")))%char then rest else s
  | _ => s
  end.

(** [int(tok, 16)] on the tokens scan definitions are written with:
    hexadecimal digits with an optional [0x] or [0X] in front.  A token
    without a digit, or with any other character, is a [ValueError].
    (Python reads a sign and blanks around the number as well; every
    statement below takes its tokens inside this grammar, or is about a
    scan that has raised nothing.) *)
Definition int16 (tok : string) : result Z :=
  match strip_radix tok with
  | EmptyString => Raise ValueError
  | digits => of_option ValueError (hex_value 0 digits)
  end.

(** [s.replace('0x', '')]: every occurrence, left to right, not
    overlapping. *)
Fixpoint replace_0x (s : string) : string :=
  match s with
  | EmptyString => EmptyString
  | String c rest =>
      match rest with
      | String c' rest' =>
          if ((c =? "0") && (c' =? "x"))%char then replace_0x rest'
          else String c (replace_0x rest)
      | EmptyString => String c EmptyString
      end
  end.

(** ['{:x}'.format(n)]: lowercase digits, no radix prefix, no leading
    zero, a minus sign before the digits of a negative number. *)
Definition format_x (n : Z) : string :=
  HexadecimalString.NilZero.string_of_int (Z.to_hex_int n).

(** ['{}'.format(n)] for an integer. *)
Definition format_d (n : Z) : string :=
  DecimalString.NilZero.string_of_int (Z.to_int n).

(** [''.join(parts)]. *)
Definition join (parts : list string) : string := String.concat "" parts.

End Py.
Import Py.

Notation "x <- c ;; k" := (rbind c (fun x => k))
  (at level 61, c at next level, right associativity).
Notation "' pat <- c ;; k" := (rbind c (fun x => match x with pat => k end))
  (at level 61, pat pattern, c at next level, right associativity).

(** ** Scan definitions and matches *)

(** Modelled from the spec: the class of [ScanConfig.py], a file that is
    not among the sources embedded here.  A scan definition keeps the fields of its JSON record; [flags]
    are the tokens as written there (["0x67"], ...), since the scanner calls
    [int(flag, 16)] and [flag.replace] on them; [match_type] and
    [match_label] are the two parts of the [on_match] directive. *)
Record ScanConfig : Type := {
  name : string;
  description : string;
  type : string;
  flags : list string;
  match_type : string;
  match_label : string;
  enabled : bool
}.

(** ** Medium-level IL *)

Inductive MediumLevelILOperation : Type :=
| MLIL_NOP | MLIL_SET_VAR | MLIL_VAR | MLIL_LOAD | MLIL_STORE
| MLIL_CONST | MLIL_CONST_PTR | MLIL_ADD | MLIL_SUB | MLIL_XOR
| MLIL_CALL | MLIL_RET | MLIL_IF.

Definition operation_eqb (a b : MediumLevelILOperation) : bool :=
  match a, b with
  | MLIL_NOP, MLIL_NOP | MLIL_SET_VAR, MLIL_SET_VAR | MLIL_VAR, MLIL_VAR
  | MLIL_LOAD, MLIL_LOAD | MLIL_STORE, MLIL_STORE | MLIL_CONST, MLIL_CONST
  | MLIL_CONST_PTR, MLIL_CONST_PTR | MLIL_ADD, MLIL_ADD | MLIL_SUB, MLIL_SUB
  | MLIL_XOR, MLIL_XOR | MLIL_CALL, MLIL_CALL | MLIL_RET, MLIL_RET
  | MLIL_IF, MLIL_IF => true
  | _, _ => false
  end.

(** An instruction of the host's IL: its operation, the index of the
    expression in its function, the byte width of its value, and its
    operands.  An operand is a sub-instruction, an integer (the value of a
    constant), a variable, or a list of expressions (the arguments of a
    call): the last three are no [MediumLevelILInstruction] for Python's
    [type(operand)]. *)
Inductive MediumLevelILInstruction : Type :=
| MLIL (operation : MediumLevelILOperation) (expr_index : nat) (size : Z)
       (operands : list Operand)
with Operand : Type :=
| OpInstr (i : MediumLevelILInstruction)
| OpInt (n : Z)
| OpVar (v : string)
| OpExprList (l : list MediumLevelILInstruction).

Definition operation (i : MediumLevelILInstruction) : MediumLevelILOperation :=
  match i with MLIL op _ _ _ => op end.
Definition size (i : MediumLevelILInstruction) : Z :=
  match i with MLIL _ _ sz _ => sz end.
Definition operands (i : MediumLevelILInstruction) : list Operand :=
  match i with MLIL _ _ _ ops => ops end.

(** [instr.constant]: the integer operand of a constant node. *)
Definition constant (i : MediumLevelILInstruction) : result Z :=
  match operation i, operands i with
  | (MLIL_CONST | MLIL_CONST_PTR), OpInt n :: _ => Ok n
  | _, _ => Raise AttributeError
  end.

(** Modelled from the spec: the classes of [ScanMatch.py], a file that is
    not among the sources embedded here.  The two kinds of match are built by the scanners from a scan
    definition and an address, or from a scan definition, the constant node
    and the chunk of flags that matched. *)
Inductive ScanMatch : Type :=
| DataConstantScanMatch (scan : ScanConfig) (address : Z)
| ILConstantScanMatch (scan : ScanConfig) (instr : MediumLevelILInstruction)
                      (chunk : list string).

(** ** The binary view and its reader *)

(** What the scanner asks of the host's [BinaryView]: where the view starts
    and ends, and the byte at an offset, if the offset is backed by data.
    [len(bv)] is the distance between the two ends.  An offset is valid for
    [is_valid_offset] exactly when a byte can be read there; the offsets of
    a view need not all be valid (segments leave gaps), and the reader may
    stand before the start of the view. *)
Record BinaryView : Type := {
  bv_start : Z;
  bv_end : Z;
  bv_byte : Z -> option Z
}.

(** A view over the bytes [bytes] laid out from [base]; [None] is an offset
    inside the view that no segment backs. *)
Definition view_of (base : Z) (bytes : list (option Z)) : BinaryView :=
  {| bv_start := base;
     bv_end := base + len bytes;
     bv_byte := fun o =>
       if (base <=? o) && (o <? base + len bytes)
       then nth (Z.to_nat (o - base)) bytes None
       else None |}.

(** What the plugin does to the host, in order. *)
Inductive Event : Type :=
| LogProgress (msg : string)
| LogError (msg : string)
| DefineUserSymbol (address : Z) (label : string)
| ShowMarkdownReport (results : list ScanMatch) (cancelled : bool)
| ShowMessageBox (title text : string).

(** ** The scanner *)

Module CryptoScan.

(** [[scan for scan in self.scanconfigs if scan.type == 'static' and
    scan.enabled]] *)
Definition static_scans (scanconfigs : list ScanConfig) : list ScanConfig :=
  filter (fun scan => (type scan =? "static")%string && enabled scan)
         scanconfigs.

(** *** Constants of an instruction *)

Fixpoint recurse_retrieve_consts (instruction : MediumLevelILInstruction)
  : list MediumLevelILInstruction :=
  match instruction with
  | MLIL op _ _ ops =>
      if operation_eqb op MLIL_CONST then [instruction]
      else
        flat_map (fun operand =>
                    match operand with
                    | OpInstr i => recurse_retrieve_consts i
                    | _ => []
                    end) ops
  end.

(** *** IL constant scan *)

(** [[scan.flags[i * instr.size:(i+1) * instr.size]
      for i in range((len(scan.flags) + 3) // 4)]] *)
Definition chunks (scan_flags : list string) (instr_size : Z)
  : list (list string) :=
  map (fun i => slice scan_flags (i * instr_size) ((i + 1) * instr_size))
      (range ((len scan_flags + 3) / 4)).

(** [''.join((flag.replace('0x', '') for flag in chunk))] *)
Definition flag_value (chunk : list string) : string :=
  join (map replace_0x chunk).

(** The body of [for chunk in chunks]. *)
Definition il_match_chunk (scan : ScanConfig) (instr : MediumLevelILInstruction)
           (chunk : list string) (results : list ScanMatch)
  : result (list ScanMatch) :=
  if len chunk =? size instr then
    c <- constant instr ;;
    let const_value := format_x c in
    if (const_value =? flag_value chunk)%string
    then Ok (results ++ [ILConstantScanMatch scan instr chunk])
    else Ok results
  else Ok results.

(** The body of [for instr in const_instructions]. *)
Definition il_match_instr (scans : list ScanConfig)
           (instr : MediumLevelILInstruction) (results : list ScanMatch)
  : result (list ScanMatch) :=
  if negb (1 <? size instr) then Ok results
  else
    for_each scans
      (fun scan results =>
         for_each (chunks (flags scan) (size instr))
                  (il_match_chunk scan instr) results)
      results.

Definition run_il_constant_scans (scanconfigs : list ScanConfig)
           (mlil_instructions : list MediumLevelILInstruction)
  : result (list ScanMatch) :=
  let scans := static_scans scanconfigs in
  let const_instructions := flat_map recurse_retrieve_consts mlil_instructions in
  for_each const_instructions (il_match_instr scans) [].

(** [run_signature_scans]: the loop body is a string, nothing is found. *)
Definition run_signature_scans (scanconfigs : list ScanConfig)
  : list ScanMatch := [].

(** How a round of a [while] loop ends: the loop goes on, or [break]. *)
Inductive flow (S : Type) : Type :=
| Continue (s : S)
| Break (s : S).
Arguments Continue {S} s.
Arguments Break {S} s.

Section WithView.

Variable bv : BinaryView.

(** *** The reader

    The state of [self.br] is its offset; every function below takes the
    offset and returns the new one last. *)

Definition is_valid_offset (offset : Z) : bool :=
  match bv_byte bv offset with Some _ => true | None => false end.

Definition eof (offset : Z) : bool := bv_end bv <=? offset.

(** [self.br.read(1)]: the byte under the cursor, which then moves on; or
    [None] where no byte can be read, and the cursor stays. *)
Definition read (offset : Z) : option Z * Z :=
  match bv_byte bv offset with
  | Some byte => (Some byte, offset + 1)
  | None => (None, offset)
  end.

(** [while not self.bv.is_valid_offset(self.br.offset) and not self.br.eof:
       self.br.seek_relative(1)]
    The loop stops at the end of the view at the latest, which bounds the
    number of its rounds. *)
Fixpoint skip_invalid_loop (fuel : nat) (offset : Z) : Z :=
  match fuel with
  | O => offset
  | S fuel' =>
      if negb (is_valid_offset offset) && negb (eof offset)
      then skip_invalid_loop fuel' (offset + 1)
      else offset
  end.

Definition skip_invalid (offset : Z) : Z :=
  skip_invalid_loop (Z.to_nat (bv_end bv - offset)) offset.

(** [while not self.br.eof and dist <= max_dist: ...] of
    [seek_next_byte]; [dist] grows in every round, so [max_dist + 1 - dist]
    rounds are enough.  The result is [(byte, dist)] and the offset. *)
Fixpoint seek_loop (fuel : nat) (max_dist : Z) (allow_null : bool)
         (dist offset : Z) : option Z * Z * Z :=
  match fuel with
  | O => (None, dist, offset)
  | S fuel' =>
      if negb (eof offset) && (dist <=? max_dist) then
        let dist := dist + 1 in
        match read offset with
        | (None, offset) =>
            seek_loop fuel' max_dist allow_null dist (offset + 1)
        | (Some byte, offset) =>
            if negb (byte =? 0) || allow_null
            then (Some byte, dist, offset)
            else seek_loop fuel' max_dist allow_null dist offset
        end
      else (None, dist, offset)
  end.

Definition seek_next_byte (max_dist : Z) (allow_null : bool) (offset : Z)
  : option Z * Z * Z :=
  let max_dist := if allow_null then max_dist * 2 + 1 else max_dist in
  let offset := skip_invalid offset in
  seek_loop (Z.to_nat (max_dist + 1)) max_dist allow_null 0 offset.

(** [next_byte]; [byte.encode] of a failed read is an [AttributeError]. *)
Definition next_byte (offset : Z) : result (option Z * Z) :=
  let offset := skip_invalid offset in
  if eof offset then Ok (None, offset)
  else
    match read offset with
    | (Some byte, offset) => Ok (Some byte, offset)
    | (None, _) => Raise AttributeError
    end.

(** *** Data constant scan *)

(** The body of [for i in range(flag_count)], on [scan.flags[i+1]]. *)
Definition fetch_flag (flag : string) (acc : list Z * Z * Z)
  : result (list Z * Z * Z) :=
  let '(test_bytes, bytes_read, offset) := acc in
  v <- int16 flag ;;
  let null_wanted := v =? 0 in
  let '(test_byte, count, offset) := seek_next_byte 15 null_wanted offset in
  let bytes_read := bytes_read + count in
  Ok (match test_byte with
      | Some b => test_bytes ++ [b]
      | None => test_bytes
      end, bytes_read, offset).

(** What follows a trigger hit for [scan]: fetch the other flags, confirm
    the match, track back. *)
Definition investigate (scan : ScanConfig) (acc : list ScanMatch * Z)
  : result (list ScanMatch * Z) :=
  let '(results, offset) := acc in
  let flag_count := len (flags scan) - 1 in
  '(test_bytes, bytes_read, offset) <-
    for_each (tl (flags scan)) fetch_flag ([], 0, offset) ;;
  confirmed <-
    (if len test_bytes =? flag_count then
       expected <- map_result int16 (tl (flags scan)) ;;
       Ok (if list_eq_dec Z.eq_dec test_bytes expected then true else false)
     else Ok false) ;;
  let results :=
    if confirmed : bool
    then results ++ [DataConstantScanMatch scan (offset - (bytes_read + 1))]
    else results in
  Ok (results, offset - bytes_read).

(** The body of [for index, trigger in enumerate(triggers)], with
    [scans[index]] at its side. *)
Definition check_trigger (b : Z) (entry : string * ScanConfig)
           (acc : list ScanMatch * Z) : result (list ScanMatch * Z) :=
  let '(trigger, scan) := entry in
  t <- int16 trigger ;;
  if b =? t then investigate scan acc else Ok acc.

(** One round of the [while] loop of the data scan, on the result list
    and the offset.  The progress text only needs the percentage, whose
    division fails on an empty view; [debug_address] is [None]. *)
Definition scan_round (entries : list (string * ScanConfig))
           (total_distance : Z) (acc : list ScanMatch * Z)
  : result (flow (list ScanMatch * Z)) :=
  let '(results, offset) := acc in
  '(b, offset) <- next_byte offset ;;
  _ <- (if total_distance =? 0 then Raise ZeroDivisionError else Ok tt) ;;
  match b with
  | None => Ok (Break (results, offset))
  | Some b =>
      acc <- for_each entries (check_trigger b) (results, offset) ;;
      Ok (Continue acc)
  end.

Section WithCancel.

(** [cancelled n] is what the [n]-th look at [self.cancelled] sees: the
    flag belongs to the host's thread. *)
Variable cancelled : nat -> bool.

(** The [while not self.br.eof and not self.cancelled] loop.  The state
    is the result list, the offset and the number of looks at the flag.
    Every round that goes on leaves the cursor further on, so the
    distance to the end of the view bounds the rounds. *)
Fixpoint scan_loop (fuel : nat) (entries : list (string * ScanConfig))
         (total_distance : Z) (st : list ScanMatch * Z * nat)
  : result (list ScanMatch * Z * nat) :=
  match fuel with
  | O => Ok st
  | S fuel' =>
      let '(results, offset, looks) := st in
      if eof offset then Ok st
      else if cancelled looks then Ok (results, offset, S looks)
      else
        round <- scan_round entries total_distance (results, offset) ;;
        match round with
        | Break (results, offset) => Ok (results, offset, S looks)
        | Continue (results, offset) =>
            scan_loop fuel' entries total_distance
                      (results, offset, S looks)
        end
  end.

Definition run_data_constant_scans (scanconfigs : list ScanConfig)
           (offset : Z) (looks : nat)
  : result (list ScanMatch * Z * nat) :=
  let scans := static_scans scanconfigs in
  triggers <-
    map_result (fun scan => of_option IndexError (hd_error (flags scan)))
               scans ;;
  let total_distance := bv_end bv - bv_start bv in
  scan_loop (Z.to_nat (bv_end bv - offset)) (combine triggers scans)
            total_distance ([], offset, looks).

(** *** Results *)

Definition set_symbol (address : Z) (label : string) : Event :=
  if is_valid_offset address then DefineUserSymbol address label
  else LogError ("Invalid address for symbol: " ++ format_d address)%string.

Definition apply_symbols (results : list ScanMatch) : list Event :=
  flat_map (fun result =>
              match result with
              | DataConstantScanMatch scan address =>
                  if (match_type scan =? "symbol")%string
                  then [set_symbol address (match_label scan)]
                  else []
              | ILConstantScanMatch _ _ _ => []
              end) results.

(** [display_results]: the report is built from the results and the flag
    as it is then. *)
Definition display_results (results : list ScanMatch) (looks : nat) : Event :=
  ShowMarkdownReport results (cancelled looks).

(** The end of [run], from [# Proceed to results] on. *)
Definition proceed_to_results (results : list ScanMatch) (looks : nat)
  : list Event :=
  let log1 :=
    if cancelled looks
    then [LogProgress "Cancelling scan, checking for partial results..."]
    else [] in
  let looks := S looks in
  if negb (len results =? 0) then
    let count := format_d (len results) in
    let plural := if len results =? 1 then "" else "es" in
    log1 ++
    [LogProgress ("Scan found " ++ count ++ " match" ++ plural)%string] ++
    apply_symbols results ++
    [display_results results looks]
  else if negb (cancelled looks) then
    log1 ++
    [LogProgress "No scan results found";
     ShowMessageBox "CryptoScan results" "No crypto constructs identified."]
  else log1.

(** [run]: the call of [run_data_constant_scans] is commented out in
    the source, so the reader is not touched. *)
Definition run (static signature : bool) (scanconfigs : list ScanConfig)
           (mlil_instructions : list MediumLevelILInstruction)
  : result (list ScanMatch * list Event) :=
  let results := [] in
  let looks := O in
  '(results, log, looks) <-
    (if static then
       let log := [LogProgress "Commencing data constant scans..."] in
       if negb (cancelled looks) then
         found <- run_il_constant_scans scanconfigs mlil_instructions ;;
         Ok (results ++ found,
             log ++ [LogProgress "Commencing IL constant scans..."],
             S looks)
       else Ok (results, log, S looks)
     else Ok (results, [], looks)) ;;
  '(results, log, looks) <-
    (if signature then
       if negb (cancelled looks) then
         Ok (results ++ run_signature_scans scanconfigs,
             log ++ [LogProgress "Running signature scans"], S looks)
       else Ok (results, log, S looks)
     else Ok (results, log, looks)) ;;
  Ok (results, log ++ proceed_to_results results looks).

End WithCancel.
End WithView.

End CryptoScan.
Import CryptoScan.

(** ** Notions of the specification *)

Definition is_const (i : MediumLevelILInstruction) : bool :=
  operation_eqb (operation i) MLIL_CONST.

(** The nodes of the operand tree in pre-order, operands from left to right.
    A constant node is a leaf of the tree. *)
Fixpoint preorder (i : MediumLevelILInstruction) : list MediumLevelILInstruction :=
  match i with
  | MLIL op _ _ ops =>
      i :: (if operation_eqb op MLIL_CONST then []
            else flat_map (fun o => match o with
                                    | OpInstr j => preorder j
                                    | _ => []
                                    end) ops)
  end.

(** The operands of an instruction that are instructions themselves. *)
Definition sub_instructions (i : MediumLevelILInstruction)
  : list MediumLevelILInstruction :=
  flat_map (fun o => match o with OpInstr j => [j] | _ => [] end) (operands i).

(** The number of constant leaves of the operand tree. *)
Definition const_leaves (i : MediumLevelILInstruction) : nat :=
  count_occ Bool.bool_dec (map is_const (preorder i)) true.

(** The chunks of the specification: consecutive runs of [w] flags that
    cover the whole sequence, the last one dropped when it is short. *)
Definition aligned_chunks (scan_flags : list string) (w : Z)
  : list (list string) :=
  filter (fun chunk => len chunk =? w)
         (map (fun i => slice scan_flags (i * w) ((i + 1) * w))
              (range ((len scan_flags + w - 1) / w))).

(** The invariant of a scan definition: [flags] is not empty and every
    element is the token of a byte. *)
Definition is_byte_token (tok : string) : bool :=
  match int16 tok with
  | Ok v => (0 <=? v) && (v <=? 255)
  | Raise _ => false
  end.

Definition well_formed (scan : ScanConfig) : bool :=
  match flags scan with
  | [] => false
  | toks => forallb is_byte_token toks
  end.

(** The cancellation flag of a task nobody cancels. *)
Definition never_cancelled : nat -> bool := fun _ => false.

(** Every offset from [offset] to the end of the view is backed by data. *)
Definition no_gap_from (bv : BinaryView) (offset : Z) : Prop :=
  forall o, offset <= o -> o < bv_end bv -> is_valid_offset bv o = true.

(** One list of matches continues another. *)
Definition extends (results' results : list ScanMatch) : Prop :=
  exists more, results' = results ++ more.

(** Equality of scan definitions can be decided. *)
Definition ScanConfig_eq_dec (a b : ScanConfig) : {a = b} + {a <> b}.
Proof.
  decide equality;
    first [apply string_dec | apply bool_dec | apply (list_eq_dec string_dec)].
Defined.

(** The addresses of the data matches that refer to the scan definition
    [c], in the order of the result list. *)
Definition addresses_of (c : ScanConfig) (results : list ScanMatch) : list Z :=
  flat_map (fun m => match m with
                     | DataConstantScanMatch scan address =>
                         if ScanConfig_eq_dec scan c then [address] else []
                     | ILConstantScanMatch _ _ _ => []
                     end) results.

(** The offsets that hold the byte [t], among the [fuel] offsets from
    [offset] on, in ascending order. *)
Fixpoint occurrences_from (bv : BinaryView) (t : Z) (fuel : nat) (offset : Z)
  : list Z :=
  match fuel with
  | O => []
  | S fuel' =>
      (match bv_byte bv offset with
       | Some b => if b =? t then [offset] else []
       | None => []
       end) ++ occurrences_from bv t fuel' (offset + 1)
  end.

(** The occurrences of the byte [t] from [offset] to the end of the view. *)
Definition occurrences (bv : BinaryView) (t : Z) (offset : Z) : list Z :=
  occurrences_from bv t (Z.to_nat (bv_end bv - offset)) offset.

(** ** Predicates of the proofs *)

(** Every character of a string passes the test. *)
Fixpoint string_forallb (p : ascii -> bool) (s : string) : bool :=
  match s with
  | EmptyString => true
  | String c rest => p c && string_forallb p rest
  end.



(** The token is one that [int(tok, 16)] reads. *)
Definition parses (tok : string) : Prop := exists v, int16 tok = Ok v.

(** The entries of the trigger loop whose tokens can all be read: the scan
    over them raises no [ValueError]. *)
Definition entries_ok (entries : list (string * ScanConfig)) : Prop :=
  Forall (fun entry => parses (fst entry) /\
                       Forall parses (tl (flags (snd entry)))) entries.

(** Every entry of the trigger loop carries the first flag of its scan. *)
Definition entries_aligned (entries : list (string * ScanConfig)) : Prop :=
  Forall (fun entry => hd_error (flags (snd entry)) = Some (fst entry)) entries.

(** ** Scan definitions, instructions and views of the examples *)

(** A static, enabled scan definition with the given name and flags. *)
Definition static_config (nm : string) (toks : list string) : ScanConfig :=
  {| name := nm; description := ""; type := "static"; flags := toks;
     match_type := "symbol"; match_label := nm; enabled := true |}.

(** Scan definitions of one, two and three flags. *)
Definition config_4b : ScanConfig := static_config "K" ["0x4B"].
Definition config_bb : ScanConfig := static_config "B" ["0xBB"].
Definition config_ab : ScanConfig := static_config "AB" ["0xAA"; "0xBB"].
Definition config_a0b : ScanConfig :=
  static_config "A0B" ["0xAA"; "0x00"; "0xBB"].
Definition config_abc : ScanConfig :=
  static_config "ABC" ["0xAA"; "0xBB"; "0xCC"].

(** The scan definition of the end-to-end property of the IL scan, and the
    same with a first byte that is not below 0x10. *)
Definition test_const : ScanConfig :=
  static_config "TestConst" ["0x01"; "0x02"; "0x03"; "0x04"].
Definition test_const_11 : ScanConfig :=
  static_config "TestConst" ["0x11"; "0x22"; "0x33"; "0x44"].

(** The flags of [test_const] written without their leading zeros. *)
Definition test_const_short : ScanConfig :=
  static_config "TestConst" ["0x1"; "0x2"; "0x3"; "0x4"].

(** Eight flag bytes. *)
Definition wide_config : ScanConfig :=
  static_config "Wide"
    ["0x11"; "0x22"; "0x33"; "0x44"; "0x55"; "0x66"; "0x77"; "0x88"].

(** Constant nodes: four bytes wide; two bytes wide and equal to the third
    pair of [wide_config]; a sign-extended literal. *)
Definition const_01020304 : MediumLevelILInstruction :=
  MLIL MLIL_CONST 1 4 [OpInt 0x01020304].
Definition const_01020305 : MediumLevelILInstruction :=
  MLIL MLIL_CONST 1 4 [OpInt 0x01020305].
Definition const_11223344 : MediumLevelILInstruction :=
  MLIL MLIL_CONST 1 4 [OpInt 0x11223344].
Definition pair_const : MediumLevelILInstruction :=
  MLIL MLIL_CONST 1 2 [OpInt 0x5566].

(** The assignment of an expression to a variable. *)
Definition assign (rhs : MediumLevelILInstruction) : MediumLevelILInstruction :=
  MLIL MLIL_SET_VAR 0 4 [OpVar "x"; OpInstr rhs].

(** An assignment whose right-hand side holds two constants below an
    addition and one more in the argument list of a call. *)
Definition example_tree : MediumLevelILInstruction :=
  MLIL MLIL_SET_VAR 0 4
    [OpVar "x";
     OpInstr (MLIL MLIL_ADD 1 4
                [OpInstr (MLIL MLIL_CONST 2 4 [OpInt 16909060]);
                 OpInstr (MLIL MLIL_XOR 3 4
                            [OpInstr (MLIL MLIL_VAR 4 4 [OpVar "y"]);
                             OpInstr (MLIL MLIL_CONST 5 4 [OpInt 7])])]);
     OpInstr (MLIL MLIL_CALL 6 0
                [OpExprList [MLIL MLIL_CONST 7 4 [OpInt 9]]])].

(** A view of one byte, the trigger of [config_4b]. *)
Definition view_4b : BinaryView := view_of 0 [Some 0x4B].

(** A null byte under the cursor at offset 100, then 0xBB. *)
Definition null_then_bb : BinaryView := view_of 100 [Some 0; Some 0xBB].

(** The bytes AA 00 BB at offset 100. *)
Definition view_a0b : BinaryView := view_of 100 [Some 0xAA; Some 0; Some 0xBB].


(** A view of four bytes without a gap. *)
Definition view_abba : BinaryView :=
  view_of 0 [Some 0xAA; Some 0xBB; Some 0xBB; Some 0xAA].

(** Two segments with an unmapped offset between them: the trigger of
    [config_ab] ends the first, its second flag starts the second. *)
Definition view_gap : BinaryView := view_of 0 [Some 0xAA; None; Some 0xBB].

(** The same with the three flags of [config_abc], the gap before the
    third. *)
Definition view_gap3 : BinaryView :=
  view_of 0 [Some 0xAA; Some 0xBB; None; Some 0xCC].

(** The trigger byte, [k] null bytes of padding, the second flag. *)
Definition padded_view (k : nat) : BinaryView :=
  view_of 100 (Some 0xAA :: repeat (Some 0) k ++ [Some 0xBB]).

(** ** Notions of the further properties *)

(** What one chunk adds to the matches of the IL scan. *)
Definition il_chunk_matches (scan : ScanConfig)
           (instr : MediumLevelILInstruction) (chunk : list string)
  : list ScanMatch :=
  if len chunk =? size instr then
    match constant instr with
    | Ok c => if (format_x c =? flag_value chunk)%string
              then [ILConstantScanMatch scan instr chunk] else []
    | Raise _ => []
    end
  else [].

(** What one constant node adds, over all scan definitions and chunks. *)
Definition il_instr_matches (scans : list ScanConfig)
           (instr : MediumLevelILInstruction) : list ScanMatch :=
  if 1 <? size instr then
    flat_map (fun scan =>
                flat_map (il_chunk_matches scan instr)
                         (chunks (flags scan) (size instr))) scans
  else [].

(** An upper-case letter. *)
Definition is_upper (c : ascii) : bool :=
  let n := Z.of_N (N_of_ascii c) in (65 <=? n) && (n <=? 90).

(** A character ['{:x}'.format] can write. *)
Definition format_x_char (c : ascii) : bool :=
  let n := Z.of_N (N_of_ascii c) in
  ((48 <=? n) && (n <=? 57)) || ((97 <=? n) && (n <=? 102)) || (n =? 45).

(** The number a sequence of hexadecimal digits stands for, after [acc]. *)
Fixpoint uint_value (acc : Z) (d : Hexadecimal.uint) : Z :=
  match d with
  | Hexadecimal.Nil => acc
  | Hexadecimal.D0 l => uint_value (16 * acc + 0) l
  | Hexadecimal.D1 l => uint_value (16 * acc + 1) l
  | Hexadecimal.D2 l => uint_value (16 * acc + 2) l
  | Hexadecimal.D3 l => uint_value (16 * acc + 3) l
  | Hexadecimal.D4 l => uint_value (16 * acc + 4) l
  | Hexadecimal.D5 l => uint_value (16 * acc + 5) l
  | Hexadecimal.D6 l => uint_value (16 * acc + 6) l
  | Hexadecimal.D7 l => uint_value (16 * acc + 7) l
  | Hexadecimal.D8 l => uint_value (16 * acc + 8) l
  | Hexadecimal.D9 l => uint_value (16 * acc + 9) l
  | Hexadecimal.Da l => uint_value (16 * acc + 10) l
  | Hexadecimal.Db l => uint_value (16 * acc + 11) l
  | Hexadecimal.Dc l => uint_value (16 * acc + 12) l
  | Hexadecimal.Dd l => uint_value (16 * acc + 13) l
  | Hexadecimal.De l => uint_value (16 * acc + 14) l
  | Hexadecimal.Df l => uint_value (16 * acc + 15) l
  end.

(** A scan definition that is not static, one that is disabled, and one
    whose flags are written in upper case. *)
Definition signature_config : ScanConfig :=
  {| name := "Sig"; description := ""; type := "signature";
     flags := ["0x11"; "0x22"; "0x33"; "0x44"];
     match_type := "symbol"; match_label := "Sig"; enabled := true |}.
Definition disabled_config : ScanConfig :=
  {| name := "Off"; description := ""; type := "static";
     flags := ["0x11"; "0x22"; "0x33"; "0x44"];
     match_type := "symbol"; match_label := "Off"; enabled := false |}.
Definition upper_config : ScanConfig :=
  static_config "Upper" ["0xAB"; "0xCD"; "0xEF"; "0x12"].
Definition const_abcdef12 : MediumLevelILInstruction :=
  MLIL MLIL_CONST 1 4 [OpInt 0xABCDEF12].

(** A character of a flag that the IL scan can match: one that
    ['{:x}'.format] writes, or the [x] of a radix prefix. *)
Definition matchable_char (c : ascii) : bool :=
  format_x_char c || (c =? "x")%char.

(** The byte a flag written as [0x] and two hexadecimal digits stands for. *)
Definition two_digit_byte (tok : string) : option Z :=
  match tok with
  | String c0 (String cx (String d1 (String d2 EmptyString))) =>
      if ((c0 =? "0") && (cx =? "x"))%char then
        match hex_digit d1, hex_digit d2 with
        | Some v1, Some v2 => Some (16 * v1 + v2)
        | _, _ => None
        end
      else None
  | _ => None
  end.

(** The bytes of a chunk of such flags. *)
Fixpoint two_digit_bytes (chunk : list string) : option (list Z) :=
  match chunk with
  | [] => Some []
  | tok :: rest =>
      match two_digit_byte tok, two_digit_bytes rest with
      | Some b, Some bs => Some (b :: bs)
      | _, _ => None
      end
  end.

(** The number whose bytes, the most significant first, are [bytes]. *)
Definition big_endian (bytes : list Z) : Z :=
  fold_left (fun acc b => 256 * acc + b) bytes 0.

(** An offset without a byte, and a byte that the seek passes over. *)
Definition unreadable (bv : BinaryView) (o : Z) : Prop := bv_byte bv o = None.
Definition passed_over (bv : BinaryView) (o : Z) : Prop :=
  bv_byte bv o = Some 0 \/ bv_byte bv o = None.

(** Unmapped offsets before and after two bytes. *)
Definition view_holes : BinaryView :=
  view_of 10 [None; None; Some 0; Some 0x7F; None].

(** The bytes [vals] are found after offset [p], in order: each one within
    sixteen offsets of the one before, a null one at the very next offset,
    and nothing but null bytes in between. *)
Fixpoint found_after (bv : BinaryView) (p : Z) (vals : list Z) : Prop :=
  match vals with
  | [] => True
  | v :: vals' =>
      exists q, p < q <= p + 16 /\ q < bv_end bv /\
                bv_byte bv q = Some v /\
                (v = 0 -> q = p + 1) /\
                (forall o, p < o < q -> bv_byte bv o = Some 0) /\
                found_after bv q vals'
  end.

(** The flags of [scan] are found at [address]: the first one there, the
    others after it. *)
Definition data_match_at (bv : BinaryView) (scan : ScanConfig) (address : Z)
  : Prop :=
  exists t vals,
    map_result int16 (flags scan) = Ok (t :: vals) /\
    bv_byte bv address = Some t /\ found_after bv address vals.

(** The bytes AA 00 00 BB 00 AA BB at offset 0. *)
Definition view_strided : BinaryView :=
  view_of 0 [Some 0xAA; Some 0; Some 0; Some 0xBB; Some 0; Some 0xAA; Some 0xBB].

(** A static, enabled scan definition without flags, and one with a flag
    that is no number. *)
Definition empty_config : ScanConfig := static_config "Empty" [].
Definition bad_config : ScanConfig := static_config "Bad" ["0x4B"; "zz"].

(** The event defines a symbol or logs an error. *)
Definition touches_symbols (ev : Event) : bool :=
  match ev with
  | DefineUserSymbol _ _ | LogError _ => true
  | _ => false
  end.

(** The event shows something to the user: the report or the message box. *)
Definition shows (ev : Event) : bool :=
  match ev with
  | ShowMarkdownReport _ _ | ShowMessageBox _ _ => true
  | _ => false
  end.

(** The match is one of the IL scan. *)
Definition is_il_match (m : ScanMatch) : bool :=
  match m with
  | ILConstantScanMatch _ _ _ => true
  | DataConstantScanMatch _ _ => false
  end.

(** The number of looks at the flag that [run] has taken when it comes to
    the results: one for each option that is set. *)
Definition looks_before_results (static signature : bool) : nat :=
  ((if static then 1 else 0) + (if signature then 1 else 0))%nat.

(** A task cancelled from the second look on. *)
Definition cancelled_late : nat -> bool := fun n => (2 <=? n)%nat.

(** The addresses of the data matches, in the order of the result list. *)
Definition data_addresses (results : list ScanMatch) : list Z :=
  flat_map (fun m => match m with
                     | DataConstantScanMatch _ address => [address]
                     | ILConstantScanMatch _ _ _ => []
                     end) results.

(** ** The progress messages of the data scan

    The rounds of the data scan's loop update [progress_trigger] and log
    from the percentage alone; the loop of the scan above leaves this part
    out, and it is modelled here on its own. *)

(** [percentage = (self.br.offset - start_offset)*100 / total_distance],
    the division of Python 2 integers. *)
Definition percentage (offset start_offset total_distance : Z) : result Z :=
  if total_distance =? 0 then Raise ZeroDivisionError
  else Ok ((offset - start_offset) * 100 / total_distance).

(** [while progress_trigger < percentage: progress_trigger += 5] *)
Fixpoint raise_trigger (fuel : nat) (progress_trigger percentage : Z) : Z :=
  match fuel with
  | O => progress_trigger
  | S fuel' =>
      if progress_trigger <? percentage
      then raise_trigger fuel' (progress_trigger + 5) percentage
      else progress_trigger
  end.

(** [if percentage >= progress_trigger: ...]: the new trigger and what is
    logged.  The inner loop ends within [percentage - progress_trigger]
    rounds. *)
Definition progress_update (progress_trigger percentage : Z) : Z * list Event :=
  if progress_trigger <=? percentage then
    let progress_trigger := progress_trigger + 5 in
    let progress_trigger :=
      raise_trigger (Z.to_nat (percentage - progress_trigger))
                    progress_trigger percentage in
    (progress_trigger,
     [LogProgress ("Scanning data for constants (" ++ format_d percentage
                   ++ "%)")%string])
  else (progress_trigger, []).

(** The updates of successive rounds, from the percentages they compute. *)
Fixpoint progress_rounds (progress_trigger : Z) (percentages : list Z)
  : Z * list Event :=
  match percentages with
  | [] => (progress_trigger, [])
  | p :: rest =>
      let '(t, log) := progress_update progress_trigger p in
      let '(t', log') := progress_rounds t rest in
      (t', log ++ log')
  end.

(** * Theorems *)

(** ** The model on small inputs *)

Example int16_tokens :
  int16 "0x4B" = Ok 75 /\ int16 "4b" = Ok 75 /\ int16 "0X00" = Ok 0 /\
  int16 "0x" = Raise ValueError /\ int16 "" = Raise ValueError /\
  int16 "0xG1" = Raise ValueError.
Proof. repeat split. Qed.

Example format_x_values :
  format_x 0 = "0" /\ format_x 0xABCDEF = "abcdef" /\
  format_x 0x01020304 = "1020304" /\ format_x (-0xAB) = "-ab".
Proof. repeat split. Qed.

Example replace_0x_tokens :
  replace_0x "0x01" = "01" /\ replace_0x "00x10x" = "01" /\
  replace_0x "0X01" = "0X01" /\ replace_0x "7f" = "7f".
Proof. repeat split. Qed.

Example slice_clipped :
  slice [1; 2; 3; 4; 5] 3 6 = [4; 5] /\ slice [1; 2; 3; 4; 5] 6 9 = [].
Proof. repeat split. Qed.

(** The null byte after the trigger is sought and accepted where the flag
    is null: one match at the address of the trigger. *)
Example data_scan_null_flag :
  run_data_constant_scans view_a0b never_cancelled [config_a0b] 100 0
  = Ok ([DataConstantScanMatch config_a0b 100], 103, 3%nat).
Proof. reflexivity. Qed.

(** ** The constants of an instruction *)

(** The induction principle of the operand tree: the sub-instructions of an
    instruction are its operands that are instructions. *)
Section MLIL_ind.
Variable P : MediumLevelILInstruction -> Prop.
Hypothesis step : forall op e sz ops,
    (forall j, In (OpInstr j) ops -> P j) -> P (MLIL op e sz ops).

Lemma MLIL_induction : forall i, P i.
Proof.
  fix IH 1. intros [op e sz ops]. apply step.
  induction ops as [|o ops IHops]; intros j Hj.
  - destruct Hj.
  - destruct Hj as [Hj|Hj].
    + destruct o as [k| | |]; try discriminate Hj.
      pose proof (IH k) as Pk. injection Hj as Hkj.
      rewrite <- Hkj. exact Pk.
    + apply IHops, Hj.
Qed.
End MLIL_ind.

Lemma filter_flat_map {A B} (p : B -> bool) (f : A -> list B) (l : list A) :
  filter p (flat_map f l) = flat_map (fun x => filter p (f x)) l.
Proof.
  induction l as [|x l IH]; simpl; [reflexivity|].
  now rewrite filter_app, IH.
Qed.

Lemma recurse_retrieve_consts_preorder (i : MediumLevelILInstruction) :
  recurse_retrieve_consts i = filter is_const (preorder i).
Proof.
  induction i as [op e sz ops IH] using MLIL_induction.
  simpl. unfold is_const at 1. simpl.
  destruct (operation_eqb op MLIL_CONST) eqn:Hop; [reflexivity|].
  rewrite filter_flat_map.
  induction ops as [|o ops IHops]; simpl; [reflexivity|].
  rewrite IHops by (intros j Hj; apply IH; now right).
  f_equal. destruct o as [j| | |]; try reflexivity.
  apply IH. now left.
Qed.

Lemma length_filter_count {A} (p : A -> bool) (l : list A) :
  List.length (filter p l) = count_occ Bool.bool_dec (map p l) true.
Proof.
  induction l as [|x l IH]; simpl; [reflexivity|].
  destruct (p x); simpl.
  - destruct (Bool.bool_dec true true); [now rewrite IH | congruence].
  - destruct (Bool.bool_dec false true); [discriminate | exact IH].
Qed.

Lemma recurse_retrieve_consts_unfold (i : MediumLevelILInstruction) :
  recurse_retrieve_consts i =
  if is_const i then [i]
  else flat_map recurse_retrieve_consts (sub_instructions i).
Proof.
  destruct i as [op e sz ops]. unfold is_const, sub_instructions. simpl.
  destruct (operation_eqb op MLIL_CONST); [reflexivity|].
  induction ops as [|o ops IHops]; simpl; [reflexivity|].
  rewrite IHops. destruct o; reflexivity.
Qed.

(** C8: an instruction whose operand tree has [k] constant leaves yields
    exactly [k] nodes, the constant nodes of the tree in pre-order with the
    operands taken from left to right; none when [k] is zero; and only the
    operands that are instructions are looked into. *)
Theorem recurse_retrieve_consts_leaves (i : MediumLevelILInstruction) (k : nat) :
  const_leaves i = k ->
  recurse_retrieve_consts i = filter is_const (preorder i) /\
  List.length (recurse_retrieve_consts i) = k /\
  (k = O -> recurse_retrieve_consts i = []) /\
  recurse_retrieve_consts i =
    (if is_const i then [i]
     else flat_map recurse_retrieve_consts (sub_instructions i)).
Proof.
  intros Hk.
  assert (Hlen : List.length (recurse_retrieve_consts i) = k).
  { rewrite recurse_retrieve_consts_preorder, length_filter_count. exact Hk. }
  repeat split.
  - apply recurse_retrieve_consts_preorder.
  - exact Hlen.
  - intros ->. now apply length_zero_iff_nil.
  - apply recurse_retrieve_consts_unfold.
Qed.

Lemma recurse_retrieve_consts_leaves_witness :
  const_leaves example_tree = 2%nat /\
  recurse_retrieve_consts example_tree =
    [MLIL MLIL_CONST 2 4 [OpInt 16909060]; MLIL MLIL_CONST 5 4 [OpInt 7]].
Proof.
  split; [reflexivity|].
  destruct (recurse_retrieve_consts_leaves example_tree 2 eq_refl) as [H _].
  rewrite H. reflexivity.
Defined.

(** ** Loops and slices *)

(** What holds before a loop and is kept by every round holds after it. *)
Lemma for_each_invariant {A S} (P : S -> Prop) (body : A -> S -> result S)
      (l : list A) :
  (forall x acc acc', In x l -> P acc -> body x acc = Ok acc' -> P acc') ->
  forall acc acc', P acc -> for_each l body acc = Ok acc' -> P acc'.
Proof.
  induction l as [|x l IH]; simpl; intros Hbody acc acc' Hacc Hrun.
  - now injection Hrun as <-.
  - destruct (body x acc) as [acc1|e] eqn:Hx; simpl in Hrun; [|discriminate].
    eapply IH; [ | | exact Hrun].
    + intros y a a' Hy. apply Hbody. now right.
    + apply (Hbody x acc acc1); auto.
Qed.




Lemma slice_beyond {A} (l : list A) (lo hi : Z) :
  len l <= lo -> slice l lo hi = [].
Proof.
  unfold slice, len. intros H.
  rewrite skipn_all2 by lia. apply firstn_nil.
Qed.


(** ** The chunks of the IL scan *)

Lemma filter_map_range_extra {B} (p : B -> bool) (f : Z -> B) (n d : nat) :
  (forall i, Z.of_nat n <= i -> p (f i) = false) ->
  filter p (map f (map Z.of_nat (seq 0 (n + d)))) =
  filter p (map f (map Z.of_nat (seq 0 n))).
Proof.
  intros Hdrop. induction d as [|d IH].
  - now rewrite Nat.add_0_r.
  - rewrite Nat.add_succ_r, seq_S, !map_app, filter_app, IH. simpl.
    rewrite Hdrop by lia. apply app_nil_r.
Qed.

Lemma ceil_div_covers (a w : Z) : 0 <= a -> 0 < w -> a <= (a + w - 1) / w * w.
Proof.
  intros Ha Hw.
  pose proof (Z.div_mod (a + w - 1) w ltac:(lia)) as Hdm.
  pose proof (Z.mod_pos_bound (a + w - 1) w Hw) as Hmod.
  nia.
Qed.

Lemma ceil_div_antitone (a w : Z) :
  0 <= a -> 4 <= w -> (a + w - 1) / w <= (a + 3) / 4.
Proof.
  intros Ha Hw.
  pose proof (ceil_div_covers a 4 Ha ltac:(lia)) as H4.
  replace (a + 4 - 1) with (a + 3) in H4 by lia.
  assert (0 <= (a + 3) / 4) by (apply Z.div_pos; lia).
  apply Z.lt_succ_r, Z.div_lt_upper_bound; [lia|].
  nia.
Qed.

(** X20: from width 4 on, the chunks the scanner keeps are the aligned full
    chunks of the flags: the count [(len + 3) // 4] is then large enough. *)
Lemma chunks_cover_from_width_4 (scan_flags : list string) (w : Z) :
  4 <= w ->
  filter (fun chunk => len chunk =? w) (chunks scan_flags w) =
  aligned_chunks scan_flags w.
Proof.
  intros Hw. unfold chunks, aligned_chunks, range.
  assert (Hlen : 0 <= len scan_flags) by (unfold len; lia).
  pose proof (ceil_div_antitone (len scan_flags) w Hlen Hw) as Hle.
  assert (Hpos : 0 <= (len scan_flags + w - 1) / w) by (apply Z.div_pos; lia).
  set (nw := Z.to_nat ((len scan_flags + w - 1) / w)).
  replace (Z.to_nat ((len scan_flags + 3) / 4))
    with (nw + (Z.to_nat ((len scan_flags + 3) / 4) - nw))%nat by lia.
  apply filter_map_range_extra.
  intros i Hi. rewrite slice_beyond.
  - apply Z.eqb_neq. unfold len. simpl. lia.
  - pose proof (ceil_div_covers (len scan_flags) w Hlen ltac:(lia)). nia.
Qed.

Lemma chunks_cover_from_width_4_witness :
  filter (fun chunk => len chunk =? 4) (chunks (flags wide_config) 4) =
  [["0x11"; "0x22"; "0x33"; "0x44"]; ["0x55"; "0x66"; "0x77"; "0x88"]].
Proof.
  rewrite (chunks_cover_from_width_4 (flags wide_config) 4) by lia.
  reflexivity.
Defined.

(** C2: for a two-byte constant and eight flags the scanner builds only
    [(8 + 3) // 4 = 2] chunks, the first two pairs.  The third pair is an
    aligned full chunk, its rendering is the rendering of the constant, and
    no match is found. *)
Theorem chunks_miss_aligned_pair :
  chunks (flags wide_config) 2 = [["0x11"; "0x22"]; ["0x33"; "0x44"]] /\
  aligned_chunks (flags wide_config) 2 =
    [["0x11"; "0x22"]; ["0x33"; "0x44"]; ["0x55"; "0x66"]; ["0x77"; "0x88"]] /\
  constant pair_const = Ok 0x5566 /\
  flag_value ["0x55"; "0x66"] = format_x 0x5566 /\
  run_il_constant_scans [wide_config] [assign pair_const] = Ok [].
Proof. repeat split. Qed.

(** C3: with the flags [0x01, 0x02, 0x03, 0x04] the four-byte constant
    0x01020304 is not matched: it is rendered without its leading zero, the
    chunk with it.  Flags written without their leading zeros do not match
    either.  The constant 0x01020305 is not matched, as it should. *)
Theorem il_scan_drops_leading_zero :
  constant const_01020304 = Ok 0x01020304 /\
  format_x 0x01020304 = "1020304" /\
  flag_value (flags test_const) = "01020304" /\
  run_il_constant_scans [test_const] [assign const_01020304] = Ok [] /\
  flag_value (flags test_const_short) = "1234" /\
  run_il_constant_scans [test_const_short] [assign const_01020304] = Ok [] /\
  run_il_constant_scans [test_const] [assign const_01020305] = Ok [].
Proof. repeat split. Qed.

(** The same scan finds a constant whose first digit is not zero. *)
Lemma il_scan_finds_constant :
  run_il_constant_scans [test_const_11] [assign const_11223344] =
  Ok [ILConstantScanMatch test_const_11 const_11223344
        ["0x11"; "0x22"; "0x33"; "0x44"]].
Proof. reflexivity. Qed.

(** ** Renderings *)

Lemma string_forallb_append (p : ascii -> bool) (s t : string) :
  string_forallb p (s ++ t)%string = string_forallb p s && string_forallb p t.
Proof.
  induction s as [|c s IH]; simpl; [reflexivity|].
  now rewrite IH, andb_assoc.
Qed.








(** ** Matches of the IL scan *)





(** A loop whose rounds raise nothing raises nothing. *)
Lemma for_each_ok {A S} (body : A -> S -> result S) (l : list A) :
  (forall x acc, In x l -> exists acc', body x acc = Ok acc') ->
  forall acc, exists acc', for_each l body acc = Ok acc'.
Proof.
  induction l as [|x l IH]; intros Hbody acc; cbn [for_each]; [eauto|].
  destruct (Hbody x acc (or_introl eq_refl)) as [acc1 ->]. cbn [rbind].
  apply IH. intros y a Hy. apply Hbody. now right.
Qed.

(** X23: the IL scan returns its matches whenever the constant nodes of the
    stream carry their integer, whatever the scan definitions are: their
    flags are never read as numbers. *)
Lemma run_il_constant_scans_ok (scanconfigs : list ScanConfig)
      (mlil_instructions : list MediumLevelILInstruction) :
  (forall instr,
      In instr (flat_map recurse_retrieve_consts mlil_instructions) ->
      exists c, constant instr = Ok c) ->
  exists results,
    run_il_constant_scans scanconfigs mlil_instructions = Ok results.
Proof.
  intros Hconst. unfold run_il_constant_scans.
  apply for_each_ok. intros instr acc Hin. unfold il_match_instr.
  destruct (negb (1 <? size instr)); [eauto|].
  apply for_each_ok. intros scan acc1 _.
  apply for_each_ok. intros chunk acc2 _. unfold il_match_chunk.
  destruct (len chunk =? size instr); [|eauto].
  destruct (Hconst instr Hin) as [c ->]. cbn [rbind].
  destruct (format_x c =? flag_value chunk)%string; eauto.
Qed.

Lemma run_il_constant_scans_ok_witness :
  exists results,
    run_il_constant_scans [empty_config; bad_config; test_const_11]
                          [assign const_11223344]
    = Ok results.
Proof.
  apply (run_il_constant_scans_ok [empty_config; bad_config; test_const_11]
                                  [assign const_11223344]).
  intros instr Hin. cbn in Hin. destruct Hin as [<-|[]].
  now exists 0x11223344.
Defined.

(** ** The reader *)

Section ReaderFacts.

Variable bv : BinaryView.

Lemma skip_invalid_loop_ge (fuel : nat) (offset : Z) :
  offset <= skip_invalid_loop bv fuel offset.
Proof.
  revert offset; induction fuel as [|fuel IH]; intros offset; simpl; [lia|].
  destruct (negb (is_valid_offset bv offset) && negb (eof bv offset)); [|lia].
  specialize (IH (offset + 1)). lia.
Qed.

(** The loop stops on a valid offset or at the end of the view: the fuel
    it is given never runs out before. *)
Lemma skip_invalid_loop_exit (fuel : nat) (offset : Z) :
  bv_end bv - offset <= Z.of_nat fuel ->
  is_valid_offset bv (skip_invalid_loop bv fuel offset) = true \/
  eof bv (skip_invalid_loop bv fuel offset) = true.
Proof.
  revert offset; induction fuel as [|fuel IH]; intros offset Hfuel; simpl.
  - right. unfold eof. apply Z.leb_le. lia.
  - destruct (is_valid_offset bv offset) eqn:Hv; simpl; [now left|].
    destruct (eof bv offset) eqn:He; simpl; [now right|].
    apply IH. lia.
Qed.

(** Only invalid offsets before the end are skipped. *)
Lemma skip_invalid_loop_skipped (fuel : nat) (offset o : Z) :
  offset <= o < skip_invalid_loop bv fuel offset ->
  is_valid_offset bv o = false /\ eof bv o = false.
Proof.
  revert offset; induction fuel as [|fuel IH]; intros offset; simpl; [lia|].
  destruct (is_valid_offset bv offset) eqn:Hv; simpl; [lia|].
  destruct (eof bv offset) eqn:He; simpl; [lia|].
  intros Ho. destruct (Z.eq_dec o offset) as [->|Hne]; [now split|].
  apply (IH (offset + 1)). lia.
Qed.

Lemma skip_invalid_ge (offset : Z) : offset <= skip_invalid bv offset.
Proof. apply skip_invalid_loop_ge. Qed.

Lemma skip_invalid_exit (offset : Z) :
  is_valid_offset bv (skip_invalid bv offset) = true \/
  eof bv (skip_invalid bv offset) = true.
Proof. apply skip_invalid_loop_exit. lia. Qed.

Lemma skip_invalid_skipped (offset o : Z) :
  offset <= o < skip_invalid bv offset ->
  is_valid_offset bv o = false /\ eof bv o = false.
Proof. apply skip_invalid_loop_skipped. Qed.

Lemma skip_invalid_valid (offset : Z) :
  is_valid_offset bv offset = true -> skip_invalid bv offset = offset.
Proof.
  intros Hv. unfold skip_invalid.
  destruct (Z.to_nat (bv_end bv - offset)); simpl; [reflexivity|].
  now rewrite Hv.
Qed.

Lemma skip_invalid_eof (offset : Z) :
  eof bv offset = true -> skip_invalid bv offset = offset.
Proof.
  intros He. unfold skip_invalid.
  destruct (Z.to_nat (bv_end bv - offset)); simpl; [reflexivity|].
  now rewrite He, andb_false_r.
Qed.

Lemma read_valid (offset : Z) :
  is_valid_offset bv offset = true ->
  exists byte, bv_byte bv offset = Some byte /\
               read bv offset = (Some byte, offset + 1).
Proof.
  unfold is_valid_offset, read.
  destruct (bv_byte bv offset) as [byte|]; [|discriminate].
  intros _. now exists byte.
Qed.

(** Every round of the seek loop counts one and moves the cursor by one;
    the count never passes [max_dist + 1]; a null byte is returned only
    where it is allowed. *)
Lemma seek_loop_spec (fuel : nat) (max_dist : Z) (allow_null : bool)
      (dist offset : Z) (byte : option Z) (count offset' : Z) :
  seek_loop bv fuel max_dist allow_null dist offset = (byte, count, offset') ->
  offset' - count = offset - dist /\
  dist <= count /\
  count <= Z.max dist (max_dist + 1) /\
  (byte = Some 0 -> allow_null = true).
Proof.
  revert dist offset.
  induction fuel as [|fuel IH]; intros dist offset; simpl.
  - intros [= <- <- <-]. repeat split; try lia. discriminate.
  - destruct (eof bv offset); simpl;
      [intros [= <- <- <-]; repeat split; try lia; discriminate|].
    destruct (dist <=? max_dist) eqn:Hd; simpl;
      [|intros [= <- <- <-]; repeat split; try lia; discriminate].
    apply Z.leb_le in Hd. unfold read.
    destruct (bv_byte bv offset) as [b|].
    + destruct (b =? 0) eqn:Hb; simpl.
      * destruct allow_null; simpl.
        -- intros [= <- <- <-]. repeat split; try lia.
        -- intros H. apply IH in H. intuition lia.
      * intros [= <- <- <-]. apply Z.eqb_neq in Hb.
        repeat split; try lia. intros [= ->]. lia.
    + intros H. apply IH in H. intuition lia.
Qed.

(** The fuel of the seek loop is enough: [max_dist + 1 - dist] rounds or
    any more give the same. *)
Lemma seek_loop_fuel (fuel1 fuel2 : nat) (max_dist : Z) (allow_null : bool)
      (dist offset : Z) :
  max_dist + 1 - dist <= Z.of_nat fuel1 ->
  max_dist + 1 - dist <= Z.of_nat fuel2 ->
  seek_loop bv fuel1 max_dist allow_null dist offset =
  seek_loop bv fuel2 max_dist allow_null dist offset.
Proof.
  revert fuel2 dist offset.
  induction fuel1 as [|fuel1 IH]; intros fuel2 dist offset H1 H2.
  - assert (Hd : (dist <=? max_dist) = false) by (apply Z.leb_gt; lia).
    destruct fuel2; simpl; [reflexivity|]. now rewrite Hd, andb_false_r.
  - destruct fuel2 as [|fuel2].
    + assert (Hd : (dist <=? max_dist) = false) by (apply Z.leb_gt; lia).
      simpl. now rewrite Hd, andb_false_r.
    + simpl. destruct (negb (eof bv offset) && (dist <=? max_dist));
        [|reflexivity].
      destruct (read bv offset) as [[b|] o].
      * destruct (negb (b =? 0) || allow_null); [reflexivity|].
        apply IH; lia.
      * apply IH; lia.
Qed.

Lemma seek_next_byte_spec (max_dist : Z) (allow_null : bool) (offset : Z)
      (byte : option Z) (count offset' : Z) :
  seek_next_byte bv max_dist allow_null offset = (byte, count, offset') ->
  offset' = skip_invalid bv offset + count /\
  0 <= count /\
  count <= Z.max 0 ((if allow_null then max_dist * 2 + 1 else max_dist) + 1) /\
  (byte = Some 0 -> allow_null = true).
Proof.
  unfold seek_next_byte. intros H. apply seek_loop_spec in H.
  intuition lia.
Qed.

(** With nulls allowed the first readable byte is returned, whatever it
    is, so the count is at most one. *)
Lemma seek_next_byte_null_count (max_dist offset : Z)
      (byte : option Z) (count offset' : Z) :
  seek_next_byte bv max_dist true offset = (byte, count, offset') ->
  count <= 1.
Proof.
  unfold seek_next_byte.
  destruct (Z.to_nat (max_dist * 2 + 1 + 1)) as [|fuel]; simpl.
  - intros [= <- <- <-]. lia.
  - destruct (skip_invalid_exit offset) as [Hv|He].
    + destruct (eof bv (skip_invalid bv offset)); simpl;
        [intros [= <- <- <-]; lia|].
      destruct (0 <=? max_dist * 2 + 1); simpl; [|intros [= <- <- <-]; lia].
      destruct (read_valid _ Hv) as (b & _ & ->).
      rewrite orb_true_r. intros [= <- <- <-]. lia.
    + rewrite He. simpl. intros [= <- <- <-]. lia.
Qed.

Lemma next_byte_spec (offset : Z) :
  (exists offset', next_byte bv offset = Ok (None, offset') /\
                   eof bv offset' = true /\ offset' = skip_invalid bv offset) \/
  (exists byte, next_byte bv offset
                = Ok (Some byte, skip_invalid bv offset + 1) /\
                bv_byte bv (skip_invalid bv offset) = Some byte /\
                eof bv (skip_invalid bv offset) = false).
Proof.
  unfold next_byte.
  destruct (eof bv (skip_invalid bv offset)) eqn:He.
  - left. eauto.
  - right. destruct (skip_invalid_exit offset) as [Hv|Hf]; [|congruence].
    destruct (read_valid _ Hv) as (b & Hb & ->). eauto.
Qed.

End ReaderFacts.

(** With nulls allowed the byte under the cursor is returned at once. *)
Lemma seek_next_byte_null_first (bv : BinaryView) (max_dist offset byte : Z) :
  0 <= max_dist ->
  eof bv offset = false ->
  bv_byte bv offset = Some byte ->
  seek_next_byte bv max_dist true offset = (Some byte, 1, offset + 1).
Proof.
  intros Hmax He Hb. unfold seek_next_byte.
  rewrite skip_invalid_valid by (unfold is_valid_offset; now rewrite Hb).
  destruct (Z.to_nat (max_dist * 2 + 1 + 1)) as [|fuel] eqn:Hfuel; [lia|].
  simpl. rewrite He. simpl.
  replace (0 <=? max_dist * 2 + 1) with true by (symmetry; apply Z.leb_le; lia).
  unfold read. rewrite Hb. now rewrite orb_true_r.
Qed.

(** C9: called with nulls allowed where a byte can be read, the seek returns
    that byte with a count of one, whatever its value; and no call with
    nulls allowed ever counts beyond one, so the bound of 31 is never
    reached. *)
Theorem seek_next_byte_allow_null_first
        (bv : BinaryView) (max_dist offset byte : Z) :
  0 <= max_dist ->
  eof bv offset = false ->
  bv_byte bv offset = Some byte ->
  seek_next_byte bv max_dist true offset = (Some byte, 1, offset + 1) /\
  (forall offset0 : Z,
      snd (fst (seek_next_byte bv max_dist true offset0)) <= 1).
Proof.
  intros Hmax He Hb. split.
  - now apply seek_next_byte_null_first.
  - intros offset0.
    destruct (seek_next_byte bv max_dist true offset0) as [[b c] o] eqn:E.
    simpl. eapply seek_next_byte_null_count, E.
Qed.

Lemma seek_next_byte_allow_null_first_witness :
  seek_next_byte null_then_bb 15 true 100 = (Some 0, 1, 101).
Proof.
  apply (seek_next_byte_allow_null_first null_then_bb 15 100 0);
    [lia | reflexivity | reflexivity].
Defined.

(** ** The data constant scan *)

Lemma extends_refl (results : list ScanMatch) : extends results results.
Proof. exists []. now rewrite app_nil_r. Qed.

Lemma extends_trans (r3 r2 r1 : list ScanMatch) :
  extends r3 r2 -> extends r2 r1 -> extends r3 r1.
Proof. intros [m2 ->] [m1 ->]. exists (m1 ++ m2). now rewrite app_assoc. Qed.

Section DataScanFacts.

Variable bv : BinaryView.

Lemma skip_invalid_no_gap (offset0 offset : Z) :
  no_gap_from bv offset0 -> offset0 <= offset ->
  skip_invalid bv offset = offset.
Proof.
  intros Hgap Hle. destruct (eof bv offset) eqn:He.
  - now apply skip_invalid_eof.
  - apply skip_invalid_valid, Hgap; [exact Hle|].
    unfold eof in He. apply Z.leb_gt in He. exact He.
Qed.

(** Fetching a flag leaves the cursor at least as far beyond the count of
    bytes read as it was, and exactly as far where no offset is skipped. *)
Lemma fetch_flag_spec (flag : string) (test_bytes : list Z)
      (bytes_read offset : Z) (tb' : list Z) (br' off' : Z) :
  fetch_flag bv flag (test_bytes, bytes_read, offset) = Ok (tb', br', off') ->
  offset - bytes_read <= off' - br' /\
  bytes_read <= br' /\
  (forall offset0, no_gap_from bv offset0 -> offset0 <= offset ->
                   off' - br' = offset - bytes_read).
Proof.
  unfold fetch_flag. destruct (int16 flag) as [v|]; simpl; [|discriminate].
  destruct (seek_next_byte bv 15 (v =? 0) offset) as [[b count] o] eqn:Hs.
  intros [= <- <- <-].
  apply seek_next_byte_spec in Hs as (-> & Hc & _).
  pose proof (skip_invalid_ge bv offset).
  repeat split; try lia.
  intros offset0 Hgap Hle.
  rewrite (skip_invalid_no_gap offset0 offset Hgap Hle). lia.
Qed.

Lemma fetch_flags_spec (toks : list string) (offset : Z) (tb : list Z)
      (br off : Z) :
  for_each toks (fetch_flag bv) ([], 0, offset) = Ok (tb, br, off) ->
  offset <= off - br /\ 0 <= br /\
  (forall offset0, no_gap_from bv offset0 -> offset0 <= offset ->
                   off - br = offset).
Proof.
  intros H.
  pose (P := fun acc : list Z * Z * Z =>
               let '(_, br, off) := acc in
               offset <= off - br /\ 0 <= br /\
               (forall offset0, no_gap_from bv offset0 -> offset0 <= offset ->
                                off - br = offset)).
  change (P (tb, br, off)).
  revert H. apply for_each_invariant.
  - intros flag [[tb1 br1] off1] [[tb2 br2] off2] _ (H1 & H2 & H3) Hf.
    apply fetch_flag_spec in Hf as (Ha & Hb & Hc).
    repeat split; try lia.
    intros offset0 Hgap Hle.
    rewrite (Hc offset0 Hgap) by lia. rewrite <- (H3 offset0 Hgap Hle). lia.
  - simpl. repeat split; try lia.
Qed.

(** After a trigger hit the cursor is never left before the place it was
    at, the matches so far are kept, and at most one is added. *)
Lemma investigate_spec (scan : ScanConfig) (results : list ScanMatch)
      (offset : Z) (results' : list ScanMatch) (offset' : Z) :
  investigate bv scan (results, offset) = Ok (results', offset') ->
  offset <= offset' /\
  (results' = results \/
   exists address, results' = results ++ [DataConstantScanMatch scan address]) /\
  (forall offset0, no_gap_from bv offset0 -> offset0 <= offset ->
                   offset' = offset).
Proof.
  unfold investigate.
  destruct (for_each (tl (flags scan)) (fetch_flag bv) ([], 0, offset))
    as [[[tb br] off]|] eqn:Hf; simpl; [|discriminate].
  apply fetch_flags_spec in Hf as (H1 & H2 & H3).
  match goal with
  | |- rbind ?c _ = _ -> _ => destruct c as [confirmed|]; simpl; [|discriminate]
  end.
  intros [= <- <-]. repeat split; try lia.
  - destruct confirmed; [right; eauto | now left].
  - intros offset0 Hgap Hle. apply (H3 offset0 Hgap Hle).
Qed.

Lemma check_trigger_spec (b : Z) (entry : string * ScanConfig)
      (results : list ScanMatch) (offset : Z)
      (results' : list ScanMatch) (offset' : Z) :
  check_trigger bv b entry (results, offset) = Ok (results', offset') ->
  offset <= offset' /\ extends results' results /\
  (forall offset0, no_gap_from bv offset0 -> offset0 <= offset ->
                   offset' = offset).
Proof.
  unfold check_trigger. destruct entry as [trigger scan].
  destruct (int16 trigger) as [t|]; simpl; [|discriminate].
  destruct (b =? t).
  - intros H. apply investigate_spec in H as (H1 & H2 & H3).
    repeat split; auto.
    destruct H2 as [->|[a ->]]; [apply extends_refl | now exists [DataConstantScanMatch scan a]].
  - intros [= <- <-]. repeat split; try lia; auto using extends_refl.
Qed.

Lemma check_triggers_spec (b : Z) (entries : list (string * ScanConfig))
      (results : list ScanMatch) (offset : Z)
      (results' : list ScanMatch) (offset' : Z) :
  for_each entries (check_trigger bv b) (results, offset)
  = Ok (results', offset') ->
  offset <= offset' /\ extends results' results /\
  (forall offset0, no_gap_from bv offset0 -> offset0 <= offset ->
                   offset' = offset).
Proof.
  intros H.
  pose (P := fun acc : list ScanMatch * Z =>
               offset <= snd acc /\ extends (fst acc) results /\
               (forall offset0, no_gap_from bv offset0 -> offset0 <= offset ->
                                snd acc = offset)).
  change (P (results', offset')).
  revert H. apply for_each_invariant.
  - intros entry [r1 o1] [r2 o2] _ (H1 & H2 & H3) Hc. simpl in *.
    apply check_trigger_spec in Hc as (Ha & Hb & Hc).
    repeat split; simpl; try lia.
    + eapply extends_trans; eassumption.
    + intros offset0 Hgap Hle.
      rewrite (Hc offset0 Hgap) by lia. now apply (H3 offset0).
  - repeat split; simpl; try lia; auto using extends_refl.
Qed.

(** *** No exception with tokens that can be read *)

Lemma fetch_flags_ok (toks : list string) (acc : list Z * Z * Z) :
  Forall parses toks -> exists acc', for_each toks (fetch_flag bv) acc = Ok acc'.
Proof.
  intros Htoks. revert acc.
  induction Htoks as [|tok toks [v Hv] _ IH]; intros acc; simpl; [eauto|].
  destruct acc as [[tb br] off]. unfold fetch_flag at 1. rewrite Hv. simpl.
  destruct (seek_next_byte bv 15 (v =? 0) off) as [[b count] o].
  simpl. apply IH.
Qed.

Lemma map_int16_ok (toks : list string) :
  Forall parses toks -> exists vs, map_result int16 toks = Ok vs.
Proof.
  induction 1 as [|tok toks [v Hv] _ [vs IH]]; simpl; [eauto|].
  rewrite Hv, IH. simpl. eauto.
Qed.

Lemma investigate_ok (scan : ScanConfig) (acc : list ScanMatch * Z) :
  Forall parses (tl (flags scan)) -> exists acc', investigate bv scan acc = Ok acc'.
Proof.
  intros Htoks. destruct acc as [results offset]. unfold investigate.
  destruct (fetch_flags_ok _ ([], 0, offset) Htoks) as [[[tb br] off] ->].
  simpl. destruct (map_int16_ok _ Htoks) as [vs ->].
  destruct (len tb =? len (flags scan) - 1); simpl; eauto.
Qed.

Lemma check_triggers_ok (b : Z) (entries : list (string * ScanConfig))
      (acc : list ScanMatch * Z) :
  entries_ok entries ->
  exists acc', for_each entries (check_trigger bv b) acc = Ok acc'.
Proof.
  intros Hok. revert acc.
  induction Hok as [|[trigger scan] entries [[t Ht] Htl] _ IH];
    intros acc; simpl; [eauto|].
  simpl in Ht, Htl. rewrite Ht. simpl.
  destruct (b =? t).
  - destruct (investigate_ok scan acc Htl) as [acc' ->]. simpl. apply IH.
  - simpl. apply IH.
Qed.

End DataScanFacts.

(** ** The rounds of the data scan *)

Section ScanLoopFacts.

Variable bv : BinaryView.

(** A round that goes on has read a byte after the invalid offsets and
    has run the trigger loop from behind it. *)
Lemma scan_round_continue (entries : list (string * ScanConfig)) (td : Z)
      (results : list ScanMatch) (offset : Z)
      (results' : list ScanMatch) (offset' : Z) :
  scan_round bv entries td (results, offset) = Ok (Continue (results', offset')) ->
  exists b,
    bv_byte bv (skip_invalid bv offset) = Some b /\
    eof bv (skip_invalid bv offset) = false /\
    for_each entries (check_trigger bv b) (results, skip_invalid bv offset + 1)
    = Ok (results', offset').
Proof.
  unfold scan_round.
  destruct (next_byte_spec bv offset) as [(o & -> & _)|(b & -> & Hb & He)];
    simpl.
  - destruct (td =? 0); simpl; discriminate.
  - destruct (td =? 0); simpl; [discriminate|].
    destruct (for_each entries (check_trigger bv b)
                       (results, skip_invalid bv offset + 1))
      as [[r o]|] eqn:Hf; simpl; [|discriminate].
    intros [= <- <-]. eauto.
Qed.

Lemma scan_round_break (entries : list (string * ScanConfig)) (td : Z)
      (results : list ScanMatch) (offset : Z)
      (results' : list ScanMatch) (offset' : Z) :
  scan_round bv entries td (results, offset) = Ok (Break (results', offset')) ->
  results' = results /\ offset' = skip_invalid bv offset /\
  eof bv offset' = true.
Proof.
  unfold scan_round.
  destruct (next_byte_spec bv offset) as [(o & -> & He & ->)|(b & -> & Hb & He)];
    simpl.
  - destruct (td =? 0); simpl; [discriminate|].
    intros [= <- <-]. auto.
  - destruct (td =? 0); simpl; [discriminate|].
    destruct (for_each entries (check_trigger bv b)
                       (results, skip_invalid bv offset + 1));
      simpl; discriminate.
Qed.

Lemma scan_round_progress (entries : list (string * ScanConfig)) (td : Z)
      (results : list ScanMatch) (offset : Z)
      (results' : list ScanMatch) (offset' : Z) :
  scan_round bv entries td (results, offset) = Ok (Continue (results', offset')) ->
  offset + 1 <= offset' /\ extends results' results.
Proof.
  intros H. apply scan_round_continue in H as (b & _ & _ & H).
  apply check_triggers_spec in H as (H1 & H2 & _).
  pose proof (skip_invalid_ge bv offset). split; [lia | exact H2].
Qed.

Lemma scan_round_ok (entries : list (string * ScanConfig)) (td : Z)
      (acc : list ScanMatch * Z) :
  entries_ok entries -> td <> 0 ->
  exists round, scan_round bv entries td acc = Ok round.
Proof.
  intros Hok Htd. destruct acc as [results offset]. unfold scan_round.
  apply Z.eqb_neq in Htd. rewrite Htd.
  destruct (next_byte_spec bv offset) as [(o & -> & _)|(b & -> & _)]; simpl.
  - eauto.
  - destruct (check_triggers_ok bv b entries
                (results, skip_invalid bv offset + 1) Hok) as [acc' ->].
    simpl. eauto.
Qed.

Section Loop.

Variable cancelled : nat -> bool.
Variable entries : list (string * ScanConfig).
Variable td : Z.

(** The loop keeps the matches it starts from, never moves the cursor
    back, and looks at the flag once in every round it enters. *)
Lemma scan_loop_extends (fuel : nat) (results : list ScanMatch)
      (offset : Z) (n : nat) (results' : list ScanMatch) (offset' : Z)
      (n' : nat) :
  scan_loop bv cancelled fuel entries td (results, offset, n)
  = Ok (results', offset', n') ->
  extends results' results /\ offset <= offset' /\ (n <= n')%nat.
Proof.
  revert results offset n.
  induction fuel as [|fuel IH]; intros results offset n; cbn [scan_loop rbind].
  - intros [= <- <- <-]. auto using extends_refl with zarith.
  - destruct (eof bv offset);
      [intros [= <- <- <-]; auto using extends_refl with zarith|].
    destruct (cancelled n);
      [intros [= <- <- <-]; auto using extends_refl with zarith|].
    destruct (scan_round bv entries td (results, offset))
      as [[[r o]|[r o]]|] eqn:Hr; cbn [scan_loop rbind]; [| |discriminate].
    + intros H. apply IH in H as (H1 & H2 & H3).
      apply scan_round_progress in Hr as (Hr1 & Hr2).
      repeat split; [eapply extends_trans; eassumption | lia | lia].
    + intros [= <- <- <-].
      apply scan_round_break in Hr as (-> & -> & _).
      pose proof (skip_invalid_ge bv offset).
      auto using extends_refl with zarith.
Qed.

(** The fuel of the loop is enough: with the distance to the end of the
    view or with any more, the loop gives the same. *)
Lemma scan_loop_fuel (fuel1 fuel2 : nat) (results : list ScanMatch)
      (offset : Z) (n : nat) :
  bv_end bv - offset <= Z.of_nat fuel1 ->
  bv_end bv - offset <= Z.of_nat fuel2 ->
  scan_loop bv cancelled fuel1 entries td (results, offset, n) =
  scan_loop bv cancelled fuel2 entries td (results, offset, n).
Proof.
  revert fuel2 results offset n.
  induction fuel1 as [|fuel1 IH]; intros fuel2 results offset n H1 H2.
  - assert (He : eof bv offset = true) by (apply Z.leb_le; lia).
    destruct fuel2; cbn [scan_loop rbind]; [reflexivity | now rewrite He].
  - destruct fuel2 as [|fuel2].
    + assert (He : eof bv offset = true) by (apply Z.leb_le; lia).
      cbn [scan_loop rbind]. now rewrite He.
    + cbn [scan_loop rbind]. destruct (eof bv offset); [reflexivity|].
      destruct (cancelled n); [reflexivity|].
      destruct (scan_round bv entries td (results, offset))
        as [[[r o]|[r o]]|] eqn:Hr; cbn [scan_loop rbind]; try reflexivity.
      apply scan_round_progress in Hr as (Hr & _).
      apply IH; lia.
Qed.

(** A scan nobody cancels ends at the end of the view, not for want of
    fuel. *)
Lemma scan_loop_reaches_end (fuel : nat) (results : list ScanMatch)
      (offset : Z) (n : nat) (results' : list ScanMatch) (offset' : Z)
      (n' : nat) :
  cancelled = never_cancelled ->
  bv_end bv - offset <= Z.of_nat fuel ->
  scan_loop bv cancelled fuel entries td (results, offset, n)
  = Ok (results', offset', n') ->
  eof bv offset' = true.
Proof.
  intros Hnever. revert results offset n.
  induction fuel as [|fuel IH]; intros results offset n Hfuel;
    cbn [scan_loop rbind].
  - intros [= _ <- _]. apply Z.leb_le. lia.
  - destruct (eof bv offset) eqn:He; [now intros [= _ <- _]|].
    rewrite Hnever. unfold never_cancelled at 1. rewrite <- Hnever.
    destruct (scan_round bv entries td (results, offset))
      as [[[r o]|[r o]]|] eqn:Hr; cbn [scan_loop rbind]; [| |discriminate].
    + intros H. apply IH in H; [exact H|].
      apply scan_round_progress in Hr as (Hr & _). lia.
    + intros [= _ <- _]. now apply scan_round_break in Hr as (_ & _ & Hr).
Qed.

Lemma scan_loop_ok (fuel : nat) (st : list ScanMatch * Z * nat) :
  entries_ok entries -> td <> 0 ->
  exists st', scan_loop bv cancelled fuel entries td st = Ok st'.
Proof.
  intros Hok Htd. revert st.
  induction fuel as [|fuel IH]; intros [[results offset] n]; cbn [scan_loop rbind]; [eauto|].
  destruct (eof bv offset); [eauto|].
  destruct (cancelled n); [eauto|].
  destruct (scan_round_ok entries td (results, offset) Hok Htd)
    as [[[r o]|[r o]] ->]; cbn [scan_loop rbind]; eauto.
Qed.


End Loop.


End ScanLoopFacts.

(** ** The whole data scan *)

Lemma is_byte_token_parses (tok : string) :
  is_byte_token tok = true -> parses tok.
Proof.
  unfold is_byte_token, parses.
  destruct (int16 tok) as [v|]; [eauto | discriminate].
Qed.

(** Well-formed scan definitions have a trigger each, and give entries
    whose tokens can all be read. *)
Lemma triggers_ok (scans : list ScanConfig) :
  forallb well_formed scans = true ->
  exists triggers,
    map_result (fun scan => of_option IndexError (hd_error (flags scan))) scans
    = Ok triggers /\
    entries_ok (combine triggers scans).
Proof.
  induction scans as [|scan scans IH]; simpl; intros Hwf.
  - exists []. split; [reflexivity | constructor].
  - apply andb_true_iff in Hwf as [Hscan Hrest].
    destruct (IH Hrest) as (triggers & -> & Hok).
    unfold well_formed in Hscan.
    destruct (flags scan) as [|tok toks] eqn:Hflags; [discriminate|].
    simpl. exists (tok :: triggers). split; [reflexivity|].
    simpl in Hscan. apply andb_true_iff in Hscan as [Htok Htoks].
    constructor; [|exact Hok]. simpl. rewrite Hflags. simpl. split.
    + now apply is_byte_token_parses.
    + apply Forall_forall. intros t Ht. apply is_byte_token_parses.
      rewrite forallb_forall in Htoks. now apply Htoks.
Qed.

(** The data scan of well-formed scan definitions over a view that is not
    empty raises no exception. *)
Lemma run_data_constant_scans_ok (bv : BinaryView) (cancelled : nat -> bool)
      (scanconfigs : list ScanConfig) (offset : Z) (looks : nat) :
  forallb well_formed (static_scans scanconfigs) = true ->
  bv_start bv < bv_end bv ->
  exists st, run_data_constant_scans bv cancelled scanconfigs offset looks = Ok st.
Proof.
  intros Hwf Hlen. unfold run_data_constant_scans.
  destruct (triggers_ok _ Hwf) as (triggers & -> & Hok).
  cbn [rbind]. apply scan_loop_ok; [exact Hok | lia].
Qed.



(** C1: with the static option set and a view that holds the trigger of a
    one-flag scan definition, the data scan finds the match when asked, but
    [run] returns no match: it announces the data scan and goes on to the IL
    scan without running it. *)
Theorem run_skips_data_scan :
  run_data_constant_scans view_4b never_cancelled [config_4b] 0 0
  = Ok ([DataConstantScanMatch config_4b 0], 1, 1%nat) /\
  run_il_constant_scans [config_4b] [] = Ok [] /\
  run view_4b never_cancelled true false [config_4b] []
  = Ok ([],
        [LogProgress "Commencing data constant scans...";
         LogProgress "Commencing IL constant scans...";
         LogProgress "No scan results found";
         ShowMessageBox "CryptoScan results" "No crypto constructs identified."]).
Proof. repeat split. Qed.

(** Whatever the view holds, the matches of [run] with the static option
    are those of the IL scan when the flag is not set at the first look. *)
Lemma run_static_results (bv : BinaryView) (cancelled : nat -> bool)
      (scanconfigs : list ScanConfig)
      (mlil_instructions : list MediumLevelILInstruction)
      (results : list ScanMatch) (log : list Event) :
  cancelled O = false ->
  run bv cancelled true false scanconfigs mlil_instructions = Ok (results, log) ->
  run_il_constant_scans scanconfigs mlil_instructions = Ok results.
Proof.
  intros Hc. unfold run. rewrite Hc. cbn [negb].
  destruct (run_il_constant_scans scanconfigs mlil_instructions) as [found|];
    cbn [rbind app]; [|discriminate].
  now intros [= <- _].
Qed.

(** C5: the trigger of [config_ab] at offset 0, an unmapped offset, then
    the second flag.  The lookahead skips the unmapped offset without
    counting it, so the cursor is put back to offset 2 and not to offset 1,
    the place after the trigger, and the match is recorded at address 1. *)
Theorem investigate_leaves_cursor_beyond :
  next_byte view_gap 0 = Ok (Some 0xAA, 1) /\
  seek_next_byte view_gap 15 false 1 = (Some 0xBB, 1, 3) /\
  investigate view_gap config_ab ([], 1)
  = Ok ([DataConstantScanMatch config_ab 1], 2).
Proof. repeat split. Qed.

(** X21: where every offset up to the end of the view is backed by data,
    the cursor is put back where it was. *)
Lemma investigate_restores_cursor (bv : BinaryView) (scan : ScanConfig)
      (results : list ScanMatch) (offset : Z)
      (results' : list ScanMatch) (offset' : Z) :
  no_gap_from bv offset ->
  investigate bv scan (results, offset) = Ok (results', offset') ->
  offset' = offset.
Proof.
  intros Hgap H. apply investigate_spec in H as (_ & _ & H).
  apply (H offset Hgap). lia.
Qed.

Lemma investigate_restores_cursor_witness :
  exists offset',
    investigate view_abba config_ab ([], 1)
    = Ok ([DataConstantScanMatch config_ab 0], offset') /\ offset' = 1.
Proof.
  exists 1. split; [reflexivity|].
  apply (investigate_restores_cursor
           view_abba config_ab [] 1 [DataConstantScanMatch config_ab 0] 1);
    [|reflexivity].
  intros o H0 H1. change (bv_end view_abba) with 4 in H1.
  assert (Ho : o = 1 \/ o = 2 \/ o = 3) by lia.
  destruct Ho as [->|[->| ->]]; reflexivity.
Defined.

(** C6: [config_bb] has the one flag 0xBB, and the view holds that byte at
    offset 1.  The lookahead of [config_abc] from the trigger at offset 0
    skips the unmapped offset 2 without counting it and leaves the cursor at
    offset 2: the byte at offset 1 is never looked at, and [config_bb] gets
    no match.  Alone, [config_bb] gets its match. *)
Theorem data_scan_misses_trigger :
  occurrences view_gap3 0xBB 0 = [1] /\
  run_data_constant_scans view_gap3 never_cancelled [config_abc; config_bb] 0 0
  = Ok ([DataConstantScanMatch config_abc 1], 4, 2%nat) /\
  addresses_of config_bb [DataConstantScanMatch config_abc 1] = [] /\
  run_data_constant_scans view_gap3 never_cancelled [config_bb] 0 0
  = Ok ([DataConstantScanMatch config_bb 1], 4, 3%nat).
Proof. repeat split. Qed.

(** ** Null padding between two flags *)

Lemma view_of_byte (base : Z) (bytes : list (option Z)) (i : nat) :
  (i < List.length bytes)%nat ->
  bv_byte (view_of base bytes) (base + Z.of_nat i) = nth i bytes None.
Proof.
  intros Hi. unfold view_of, len. cbn [bv_byte].
  replace ((base <=? base + Z.of_nat i) &&
           (base + Z.of_nat i <? base + Z.of_nat (List.length bytes)))
    with true by (symmetry; apply andb_true_iff; split;
                  [apply Z.leb_le | apply Z.ltb_lt]; lia).
  f_equal. lia.
Qed.

Lemma padded_view_end (k : nat) : bv_end (padded_view k) = 100 + Z.of_nat k + 2.
Proof.
  unfold padded_view, view_of, len. cbn [bv_end].
  cbn [List.length]. rewrite length_app, repeat_length. cbn [List.length]. lia.
Qed.

Lemma padded_view_start (k : nat) : bv_start (padded_view k) = 100.
Proof. reflexivity. Qed.

Lemma padded_view_trigger (k : nat) : bv_byte (padded_view k) 100 = Some 0xAA.
Proof.
  exact (view_of_byte 100 (Some 0xAA :: repeat (Some 0) k ++ [Some 0xBB]) 0
                      ltac:(cbn [List.length]; lia)).
Qed.

Lemma padded_view_null (k i : nat) :
  (i < k)%nat -> bv_byte (padded_view k) (101 + Z.of_nat i) = Some 0.
Proof.
  intros Hi. replace (101 + Z.of_nat i) with (100 + Z.of_nat (S i)) by lia.
  unfold padded_view. rewrite view_of_byte.
  - cbn [nth]. rewrite app_nth1 by (rewrite repeat_length; lia).
    now apply nth_repeat_lt.
  - cbn [List.length]. rewrite length_app, repeat_length. cbn [List.length]. lia.
Qed.

Lemma padded_view_last (k : nat) :
  bv_byte (padded_view k) (101 + Z.of_nat k) = Some 0xBB.
Proof.
  replace (101 + Z.of_nat k) with (100 + Z.of_nat (S k)) by lia.
  unfold padded_view. rewrite view_of_byte.
  - cbn [nth]. rewrite app_nth2 by (rewrite repeat_length; lia).
    rewrite repeat_length, Nat.sub_diag. reflexivity.
  - cbn [List.length]. rewrite length_app, repeat_length. cbn [List.length]. lia.
Qed.

Section SeekPadding.

Variable bv : BinaryView.

(** The seek loop over [j] null bytes and a byte that is not null: it
    finds the byte if that takes no more than [max_dist + 1] reads in all,
    and gives up after that many otherwise. *)
Lemma seek_loop_padding (max_dist b : Z) (j : nat) :
  b <> 0 ->
  forall (fuel : nat) (dist offset : Z),
    0 <= dist <= max_dist + 1 ->
    fuel = Z.to_nat (max_dist + 1 - dist) ->
    (forall i, (i < j)%nat -> bv_byte bv (offset + Z.of_nat i) = Some 0) ->
    bv_byte bv (offset + Z.of_nat j) = Some b ->
    offset + Z.of_nat j < bv_end bv ->
    seek_loop bv fuel max_dist false dist offset =
    if dist + Z.of_nat j <=? max_dist
    then (Some b, dist + Z.of_nat j + 1, offset + Z.of_nat j + 1)
    else (None, max_dist + 1, offset + (max_dist + 1 - dist)).
Proof.
  intros Hb. induction j as [|j IH]; intros fuel dist offset Hd Hfuel Hz Hlast He.
  - cbn [Z.of_nat] in *. rewrite !Z.add_0_r in *.
    destruct (dist <=? max_dist) eqn:Hle.
    + apply Z.leb_le in Hle.
      destruct fuel as [|fuel]; [lia|]. cbn [seek_loop].
      replace (eof bv offset) with false
        by (symmetry; apply Z.leb_gt; lia).
      replace (dist <=? max_dist) with true by (symmetry; apply Z.leb_le; lia).
      cbn [negb andb]. unfold read. rewrite Hlast.
      replace (b =? 0) with false by (symmetry; now apply Z.eqb_neq).
      reflexivity.
    + apply Z.leb_gt in Hle. assert (dist = max_dist + 1) by lia. subst dist.
      replace fuel with O by lia. cbn [seek_loop]. f_equal. lia.
  - destruct (dist <=? max_dist) eqn:Hle.
    + apply Z.leb_le in Hle.
      destruct fuel as [|fuel]; [lia|]. cbn [seek_loop].
      replace (eof bv offset) with false
        by (symmetry; apply Z.leb_gt; lia).
      replace (dist <=? max_dist) with true by (symmetry; apply Z.leb_le; lia).
      cbn [negb andb]. unfold read.
      pose proof (Hz O ltac:(lia)) as H0. rewrite Z.add_0_r in H0. rewrite H0.
      cbn [Z.eqb negb orb].
      rewrite (IH fuel (dist + 1) (offset + 1)); try lia.
      * replace (dist + 1 + Z.of_nat j) with (dist + Z.of_nat (S j)) by lia.
        destruct (dist + Z.of_nat (S j) <=? max_dist); f_equal; lia.
      * intros i Hi. specialize (Hz (S i) ltac:(lia)).
        now replace (offset + 1 + Z.of_nat i) with (offset + Z.of_nat (S i)) by lia.
      * now replace (offset + 1 + Z.of_nat j) with (offset + Z.of_nat (S j)) by lia.
    + apply Z.leb_gt in Hle. assert (dist = max_dist + 1) by lia. subst dist.
      replace fuel with O by lia. cbn [seek_loop].
      replace (max_dist + 1 + Z.of_nat (S j) <=? max_dist) with false
        by (symmetry; apply Z.leb_gt; lia).
      f_equal. lia.
Qed.

End SeekPadding.

Section NoTrigger.

Variable bv : BinaryView.
Variable entries : list (string * ScanConfig).
Variable td : Z.

(** Over bytes that hit no trigger the scan adds no match. *)
Lemma scan_loop_no_trigger (fuel : nat) (results : list ScanMatch)
      (offset : Z) (n : nat) :
  td <> 0 ->
  (forall o b acc, offset <= o -> bv_byte bv o = Some b ->
                   for_each entries (check_trigger bv b) acc = Ok acc) ->
  exists off' n',
    scan_loop bv never_cancelled fuel entries td (results, offset, n)
    = Ok (results, off', n').
Proof.
  intros Htd. revert offset n.
  induction fuel as [|fuel IH]; intros offset n Hno; cbn [scan_loop]; [eauto|].
  destruct (eof bv offset); [eauto|].
  unfold never_cancelled at 1. unfold scan_round.
  apply Z.eqb_neq in Htd. rewrite Htd.
  pose proof (skip_invalid_ge bv offset) as Hge.
  destruct (next_byte_spec bv offset) as [(o & -> & _)|(b & -> & Hb & _)];
    cbn [rbind]; [eauto|].
  rewrite (Hno _ b _ Hge Hb). cbn [rbind].
  apply IH. intros o b' acc Ho. apply Hno. lia.
Qed.

End NoTrigger.

Lemma check_trigger_aa_miss (bv : BinaryView) (b : Z)
      (acc : list ScanMatch * Z) :
  b <> 0xAA ->
  for_each [("0xAA", config_ab)] (check_trigger bv b) acc = Ok acc.
Proof.
  intros Hb. cbn [for_each]. unfold check_trigger.
  change (int16 "0xAA") with (Ok 0xAA). cbn [rbind].
  replace (b =? 0xAA) with false by (symmetry; now apply Z.eqb_neq).
  reflexivity.
Qed.

(** The bytes of a padded view behind its first are null or 0xBB. *)
Lemma padded_view_rest (k : nat) (o b : Z) :
  101 <= o -> bv_byte (padded_view k) o = Some b -> b <> 0xAA.
Proof.
  intros Ho Hb.
  destruct (Z_lt_le_dec o (101 + Z.of_nat k)) as [Hlt|Hge].
  - replace o with (101 + Z.of_nat (Z.to_nat (o - 101))) in Hb by lia.
    rewrite padded_view_null in Hb by lia. injection Hb as <-. discriminate.
  - destruct (Z.eq_dec o (101 + Z.of_nat k)) as [->|Hne].
    + rewrite padded_view_last in Hb. injection Hb as <-. discriminate.
    + exfalso. revert Hb. unfold padded_view, view_of, len. cbn [bv_byte].
      cbn [List.length]. rewrite length_app, repeat_length. cbn [List.length].
      replace (o <? 100 + Z.of_nat (S (k + 1))) with false
        by (symmetry; apply Z.ltb_ge; lia).
      rewrite andb_false_r. discriminate.
Qed.

Lemma padded_view_seek (k : nat) :
  seek_next_byte (padded_view k) 15 false 101 =
  if (k <=? 15)%nat then (Some 0xBB, Z.of_nat k + 1, 101 + Z.of_nat k + 1)
  else (None, 16, 117).
Proof.
  unfold seek_next_byte.
  assert (Hvalid : is_valid_offset (padded_view k) 101 = true).
  { unfold is_valid_offset. destruct k as [|k].
    - change 101 with (101 + Z.of_nat 0). now rewrite padded_view_last.
    - change 101 with (101 + Z.of_nat 0). rewrite padded_view_null; [reflexivity|lia]. }
  rewrite skip_invalid_valid by exact Hvalid.
  rewrite (seek_loop_padding (padded_view k) 15 0xBB k); try lia.
  - rewrite !Z.add_0_l. destruct (Nat.leb_spec k 15) as [Hle|Hgt].
    + replace (Z.of_nat k <=? 15) with true by (symmetry; apply Z.leb_le; lia).
      reflexivity.
    + replace (Z.of_nat k <=? 15) with false by (symmetry; apply Z.leb_gt; lia).
      reflexivity.
  - intros i Hi. now apply padded_view_null.
  - apply padded_view_last.
  - rewrite padded_view_end. lia.
Qed.

Lemma padded_view_investigate (k : nat) :
  investigate (padded_view k) config_ab ([], 101) =
  Ok (if (k <=? 15)%nat then [DataConstantScanMatch config_ab 100] else [], 101).
Proof.
  unfold investigate.
  change (flags config_ab) with ["0xAA"; "0xBB"]. cbn [tl for_each].
  unfold fetch_flag. change (int16 "0xBB") with (Ok 0xBB). cbn [rbind].
  change (0xBB =? 0) with false. rewrite padded_view_seek.
  destruct (k <=? 15)%nat.
  - cbn [rbind map_result]. change (int16 "0xBB") with (Ok 0xBB). cbn [rbind].
    replace (101 + Z.of_nat k + 1 - (0 + (Z.of_nat k + 1) + 1)) with 100 by lia.
    replace (101 + Z.of_nat k + 1 - (0 + (Z.of_nat k + 1))) with 101 by lia.
    reflexivity.
  - reflexivity.
Qed.

(** The scan of the padded view: the one trigger is its first byte. *)
Lemma padded_view_scan (k : nat) :
  exists off n,
    run_data_constant_scans (padded_view k) never_cancelled [config_ab] 100 0
    = Ok (if (k <=? 15)%nat then [DataConstantScanMatch config_ab 100] else [],
          off, n).
Proof.
  unfold run_data_constant_scans.
  change (static_scans [config_ab]) with [config_ab].
  cbn [map_result rbind]. change (flags config_ab) with ["0xAA"; "0xBB"].
  cbn [hd_error of_option rbind combine].
  rewrite padded_view_end, padded_view_start.
  destruct (Z.to_nat (100 + Z.of_nat k + 2 - 100)) as [|fuel] eqn:Hfuel; [lia|].
  cbn [scan_loop].
  replace (eof (padded_view k) 100) with false
    by (symmetry; apply Z.leb_gt; rewrite padded_view_end; lia).
  unfold never_cancelled at 1. unfold scan_round, next_byte.
  assert (Hvalid : is_valid_offset (padded_view k) 100 = true)
    by (unfold is_valid_offset; now rewrite padded_view_trigger).
  rewrite skip_invalid_valid by exact Hvalid.
  replace (eof (padded_view k) 100) with false
    by (symmetry; apply Z.leb_gt; rewrite padded_view_end; lia).
  unfold read. rewrite padded_view_trigger. cbn [rbind].
  replace (100 + Z.of_nat k + 2 - 100 =? 0) with false
    by (symmetry; apply Z.eqb_neq; lia).
  cbn [rbind for_each]. unfold check_trigger at 1.
  change (int16 "0xAA") with (Ok 0xAA). cbn [rbind].
  change (0xAA =? 0xAA) with true. cbn iota.
  change (100 + 1) with 101. rewrite padded_view_investigate. cbn [rbind].
  apply scan_loop_no_trigger; [lia|].
  intros o b acc Ho Hb. apply check_trigger_aa_miss.
  eapply padded_view_rest; eassumption.
Qed.

(** C4, to the contrary of a bound of fifteen reads: the seek over fifteen
    null bytes reads sixteen bytes and finds the flag. *)
Lemma lookahead_reads_sixteen_bytes :
  seek_next_byte (padded_view 15) 15 false 101 = (Some 0xBB, 16, 117) /\
  ~ (forall (bv : BinaryView) (offset : Z),
        snd (fst (seek_next_byte bv 15 false offset)) <= 15).
Proof.
  split; [reflexivity|].
  intros H. specialize (H (padded_view 15) 101).
  change (16 <= 15) in H. lia.
Qed.

(** C4, as the code has it: the lookahead for a flag allows a null byte exactly when
    the flag is null: a null byte is accepted only then, and then the first
    byte under the cursor is accepted, null or not.  A seek counts at most
    16 reads when nulls are not allowed (15 null bytes skipped and the byte
    found) and at most one when they are.  For the flags [0xAA, 0xBB] and
    the bytes AA, [k] null bytes, BB the scan reports the match at the
    trigger exactly when [k] is at most 15. *)
Theorem lookahead_null_and_bounds
        (bv : BinaryView) (flag : string) (v : Z) (test_bytes : list Z)
        (bytes_read offset : Z) (k : nat) :
  int16 flag = Ok v ->
  (exists byte count offset',
      seek_next_byte bv 15 (v =? 0) offset = (byte, count, offset') /\
      fetch_flag bv flag (test_bytes, bytes_read, offset)
      = Ok (match byte with
            | Some b => test_bytes ++ [b]
            | None => test_bytes
            end, bytes_read + count, offset') /\
      0 <= count <= (if v =? 0 then 1 else 16) /\
      (byte = Some 0 -> v = 0)) /\
  (v = 0 -> eof bv offset = false ->
   forall b, bv_byte bv offset = Some b ->
             fetch_flag bv flag (test_bytes, bytes_read, offset)
             = Ok (test_bytes ++ [b], bytes_read + 1, offset + 1)) /\
  (exists off n,
      run_data_constant_scans (padded_view k) never_cancelled [config_ab] 100 0
      = Ok (if (k <=? 15)%nat then [DataConstantScanMatch config_ab 100] else [],
            off, n)).
Proof.
  intros Hv. split; [|split].
  - destruct (seek_next_byte bv 15 (v =? 0) offset) as [[byte count] offset']
      eqn:Hs.
    exists byte, count, offset'. split; [reflexivity|]. split.
    + unfold fetch_flag. rewrite Hv. cbn [rbind]. now rewrite Hs.
    + pose proof (seek_next_byte_spec _ _ _ _ _ _ _ Hs) as (_ & H0 & Hmax & Hnull).
      destruct (v =? 0) eqn:Hz.
      * apply seek_next_byte_null_count in Hs.
        apply Z.eqb_eq in Hz. repeat split; try lia.
      * repeat split; try lia. intros Hb. apply Hnull in Hb. discriminate.
  - intros -> He b Hb. unfold fetch_flag. rewrite Hv. cbn [rbind].
    change (0 =? 0) with true.
    rewrite (seek_next_byte_null_first bv 15 offset b) by (lia || assumption).
    reflexivity.
  - apply padded_view_scan.
Qed.

Lemma lookahead_null_and_bounds_witness :
  exists off n,
    run_data_constant_scans (padded_view 15) never_cancelled [config_ab] 100 0
    = Ok ([DataConstantScanMatch config_ab 100], off, n).
Proof.
  exact (proj2 (proj2 (lookahead_null_and_bounds
                         (padded_view 15) "0xBB" 0xBB [] 0 101 15 eq_refl))).
Defined.

(** ** One-flag scan definitions over a view without gaps *)

Section SingleFlag.

Variable bv : BinaryView.
Variable c : ScanConfig.
Variable tok : string.
Variable t : Z.
Hypothesis c_flags : flags c = [tok].
Hypothesis tok_value : int16 tok = Ok t.

Lemma addresses_of_app (r1 r2 : list ScanMatch) :
  addresses_of c (r1 ++ r2) = addresses_of c r1 ++ addresses_of c r2.
Proof. unfold addresses_of. apply flat_map_app. Qed.

(** A trigger hit for [c] itself: no flag is left to fetch, the match is
    recorded at the offset before the cursor, and the cursor stays. *)
Lemma investigate_single (results : list ScanMatch) (offset : Z) :
  investigate bv c (results, offset)
  = Ok (results ++ [DataConstantScanMatch c (offset - 1)], offset).
Proof.
  unfold investigate. rewrite c_flags. cbn [tl for_each rbind map_result].
  change (len [] =? len [tok] - 1) with true. cbn [rbind].
  destruct (list_eq_dec Z.eq_dec [] []) as [_|Hne]; [|congruence].
  do 3 f_equal; lia.
Qed.

(** One entry of the trigger loop, seen from [c]: its own entry adds the
    offset before the cursor on a hit, any other entry adds nothing, and
    without gaps the cursor is where it was. *)
Lemma check_trigger_addresses (offset0 b : Z) (entry : string * ScanConfig)
      (results : list ScanMatch) (offset : Z)
      (results' : list ScanMatch) (offset' : Z) :
  no_gap_from bv offset0 -> offset0 <= offset ->
  hd_error (flags (snd entry)) = Some (fst entry) ->
  check_trigger bv b entry (results, offset) = Ok (results', offset') ->
  offset' = offset /\
  addresses_of c results' =
  addresses_of c results ++
    (if ScanConfig_eq_dec (snd entry) c
     then if b =? t then [offset - 1] else []
     else []).
Proof.
  intros Hgap Hle Hhd Hrun. split.
  - apply check_trigger_spec in Hrun as (_ & _ & H). now apply (H offset0).
  - destruct entry as [trigger scan]. cbn [fst snd] in *.
    unfold check_trigger in Hrun.
    destruct (ScanConfig_eq_dec scan c) as [->|Hne].
    + rewrite c_flags in Hhd. injection Hhd as <-.
      rewrite tok_value in Hrun. cbn [rbind] in Hrun.
      destruct (b =? t).
      * rewrite investigate_single in Hrun. injection Hrun as <- _.
        rewrite addresses_of_app. cbn. 
        destruct (ScanConfig_eq_dec c c); [reflexivity | congruence].
      * injection Hrun as <- _. now rewrite app_nil_r.
    + rewrite app_nil_r.
      destruct (int16 trigger) as [v|]; cbn [rbind] in Hrun; [|discriminate].
      destruct (b =? v); [|now injection Hrun as <- _].
      apply investigate_spec in Hrun as (_ & [->|[a ->]] & _); [reflexivity|].
      rewrite addresses_of_app. cbn.
      destruct (ScanConfig_eq_dec scan c); [congruence | now rewrite app_nil_r].
Qed.

(** The whole trigger loop: [c] gets the offset before the cursor once for
    each of its entries when the byte is its trigger. *)
Lemma check_triggers_addresses (offset0 b : Z)
      (entries : list (string * ScanConfig)) :
  no_gap_from bv offset0 -> entries_aligned entries ->
  forall (results : list ScanMatch) (offset : Z)
         (results' : list ScanMatch) (offset' : Z),
    offset0 <= offset ->
    for_each entries (check_trigger bv b) (results, offset)
    = Ok (results', offset') ->
    offset' = offset /\
    addresses_of c results' =
    addresses_of c results ++
      (if b =? t
       then repeat (offset - 1)
                   (count_occ ScanConfig_eq_dec (map snd entries) c)
       else []).
Proof.
  intros Hgap Hal. induction Hal as [|entry entries Hhd _ IH];
    intros results offset results' offset' Hle; cbn [for_each].
  - intros [= <- <-]. split; [reflexivity|].
    cbn. destruct (b =? t); now rewrite app_nil_r.
  - destruct (check_trigger bv b entry (results, offset)) as [[r1 o1]|] eqn:H1;
      cbn [rbind]; [|discriminate].
    intros Hrest.
    apply (check_trigger_addresses offset0) in H1 as (-> & Ha1); auto.
    apply IH in Hrest as (-> & Ha2); [|exact Hle].
    split; [reflexivity|]. rewrite Ha2, Ha1, <- app_assoc. f_equal.
    cbn [map count_occ].
    destruct (ScanConfig_eq_dec (snd entry) c); destruct (b =? t);
      reflexivity.
Qed.

(** The scan of a view without gaps visits every offset up to the end, and
    [c] gets each offset that holds its trigger byte once for each of its
    entries. *)
Lemma scan_loop_addresses (entries : list (string * ScanConfig)) (td : Z)
      (fuel : nat) :
  entries_aligned entries ->
  forall (results : list ScanMatch) (offset : Z) (n : nat)
         (results' : list ScanMatch) (offset' : Z) (n' : nat),
    no_gap_from bv offset ->
    fuel = Z.to_nat (bv_end bv - offset) ->
    scan_loop bv never_cancelled fuel entries td (results, offset, n)
    = Ok (results', offset', n') ->
    addresses_of c results' =
    addresses_of c results ++
      flat_map (fun p => repeat p (count_occ ScanConfig_eq_dec (map snd entries) c))
               (occurrences_from bv t fuel offset).
Proof.
  intros Hal. induction fuel as [|fuel IH];
    intros results offset n results' offset' n' Hgap Hfuel; cbn [scan_loop].
  - intros [= <- _ _]. cbn. now rewrite app_nil_r.
  - replace (eof bv offset) with false by (symmetry; apply Z.leb_gt; lia).
    unfold never_cancelled at 1.
    destruct (scan_round bv entries td (results, offset))
      as [[[r o]|[r o]]|] eqn:Hr; cbn [rbind]; [| |discriminate].
    + intros Hloop.
      apply scan_round_continue in Hr as (b & Hb & _ & Hfor).
      rewrite (skip_invalid_no_gap bv offset offset Hgap) in Hb, Hfor by lia.
      apply (check_triggers_addresses offset) in Hfor as (-> & Ha);
        [|assumption|assumption|lia].
      apply IH in Hloop; [| |lia].
      * rewrite Hloop, Ha, <- app_assoc. f_equal.
        cbn [occurrences_from]. rewrite Hb, flat_map_app. f_equal.
        replace (offset + 1 - 1) with offset by lia.
        destruct (b =? t); cbn; [now rewrite app_nil_r | reflexivity].
      * intros p Hp. apply Hgap. lia.
    + intros _. apply scan_round_break in Hr as (_ & -> & He).
      rewrite (skip_invalid_no_gap bv offset offset Hgap) in He by lia.
      apply Z.leb_le in He. lia.
Qed.

End SingleFlag.

Lemma triggers_aligned (scans : list ScanConfig) (triggers : list string) :
  map_result (fun scan => of_option IndexError (hd_error (flags scan))) scans
  = Ok triggers ->
  entries_aligned (combine triggers scans) /\
  map snd (combine triggers scans) = scans.
Proof.
  revert triggers. induction scans as [|scan scans IH]; intros triggers;
    cbn [map_result].
  - intros [= <-]. split; [constructor | reflexivity].
  - destruct (hd_error (flags scan)) as [tok|] eqn:Hhd;
      cbn [of_option rbind]; [|discriminate].
    destruct (map_result _ scans) as [rest|]; cbn [rbind]; [|discriminate].
    intros [= <-]. destruct (IH rest eq_refl) as [Hal Hsnd].
    split.
    + constructor; [exact Hhd | exact Hal].
    + cbn. now rewrite Hsnd.
Qed.

(** X22: over a view without invalid offsets from the cursor on, a static
    scan definition of one flag that is configured once gets exactly the
    offsets of its trigger byte, in ascending order, whatever the other
    scan definitions are. *)
Lemma single_flag_matches_without_gaps
      (bv : BinaryView) (scanconfigs : list ScanConfig) (c : ScanConfig)
      (tok : string) (t : Z) (offset : Z) (looks : nat) :
  forallb well_formed (static_scans scanconfigs) = true ->
  bv_start bv < bv_end bv ->
  no_gap_from bv offset ->
  flags c = [tok] -> int16 tok = Ok t ->
  count_occ ScanConfig_eq_dec (static_scans scanconfigs) c = 1%nat ->
  exists results offset' looks',
    run_data_constant_scans bv never_cancelled scanconfigs offset looks
    = Ok (results, offset', looks') /\
    addresses_of c results = occurrences bv t offset.
Proof.
  intros Hwf Hlen Hgap Hflags Htok Hcount.
  destruct (run_data_constant_scans_ok bv never_cancelled scanconfigs offset
              looks Hwf Hlen) as [[[results offset'] looks'] Hrun].
  exists results, offset', looks'. split; [exact Hrun|].
  unfold run_data_constant_scans in Hrun.
  destruct (map_result _ (static_scans scanconfigs)) as [triggers|] eqn:Htr;
    cbn [rbind] in Hrun; [|discriminate].
  destruct (triggers_aligned _ _ Htr) as [Hal Hsnd].
  apply (scan_loop_addresses bv c tok t Hflags Htok) in Hrun; auto.
  rewrite Hrun, Hsnd, Hcount. cbn [addresses_of flat_map app].
  unfold occurrences.
  generalize (occurrences_from bv t (Z.to_nat (bv_end bv - offset)) offset).
  intros ps. clear Hrun.
  induction ps as [|p ps IHp]; simpl in *; [reflexivity | now rewrite IHp].
Qed.

Lemma single_flag_matches_without_gaps_witness :
  exists results offset' looks',
    run_data_constant_scans view_abba never_cancelled [config_ab; config_bb] 0 0
    = Ok (results, offset', looks') /\
    addresses_of config_bb results = [1; 2].
Proof.
  apply (single_flag_matches_without_gaps
           view_abba [config_ab; config_bb] config_bb "0xBB" 0xBB 0 0);
    try reflexivity.
  intros o H0 H1. change (bv_end view_abba) with 4 in H1.
  assert (Ho : o = 0 \/ o = 1 \/ o = 2 \/ o = 3) by lia.
  destruct Ho as [->|[->|[->| ->]]]; reflexivity.
Defined.

(** * Further properties of the scanner *)

(** ** What the IL scan returns *)

(** A loop that only adds to a list, each round by what its element gives,
    adds the whole of it. *)
Lemma for_each_collect {A B} (body : A -> list B -> result (list B))
      (g : A -> list B) (l : list A) :
  (forall x acc acc', In x l -> body x acc = Ok acc' -> acc' = acc ++ g x) ->
  forall acc acc', for_each l body acc = Ok acc' -> acc' = acc ++ flat_map g l.
Proof.
  induction l as [|x l IH]; intros Hbody acc acc'; cbn [for_each flat_map].
  - intros [= <-]. now rewrite app_nil_r.
  - destruct (body x acc) as [acc1|] eqn:Hx; cbn [rbind]; [|discriminate].
    intros Hrest. apply IH in Hrest.
    + rewrite Hrest, (Hbody x acc acc1) by (auto; now left).
      now rewrite app_assoc.
    + intros y a a' Hy. apply Hbody. now right.
Qed.

Lemma il_match_chunk_collect scan instr chunk results results' :
  il_match_chunk scan instr chunk results = Ok results' ->
  results' = results ++ il_chunk_matches scan instr chunk.
Proof.
  unfold il_match_chunk, il_chunk_matches.
  destruct (len chunk =? size instr);
    [|intros [= <-]; now rewrite app_nil_r].
  destruct (constant instr) as [c|]; cbn [rbind]; [|discriminate].
  destruct (format_x c =? flag_value chunk)%string; intros [= <-];
    [reflexivity | now rewrite app_nil_r].
Qed.

Lemma il_match_instr_collect scans instr results results' :
  il_match_instr scans instr results = Ok results' ->
  results' = results ++ il_instr_matches scans instr.
Proof.
  unfold il_match_instr, il_instr_matches.
  destruct (1 <? size instr); cbn [negb];
    [|intros [= <-]; now rewrite app_nil_r].
  apply for_each_collect. intros scan acc acc' _.
  apply for_each_collect. intros chunk acc1 acc1' _.
  apply il_match_chunk_collect.
Qed.

(** The matches of an IL scan that has raised nothing, in their order: for
    every constant node of the stream, every static scan definition, every
    chunk. *)
Lemma run_il_constant_scans_collect (scanconfigs : list ScanConfig)
      (mlil_instructions : list MediumLevelILInstruction)
      (results : list ScanMatch) :
  run_il_constant_scans scanconfigs mlil_instructions = Ok results ->
  results =
  flat_map (il_instr_matches (static_scans scanconfigs))
           (flat_map recurse_retrieve_consts mlil_instructions).
Proof.
  unfold run_il_constant_scans. intros H.
  apply (for_each_collect _ (il_instr_matches (static_scans scanconfigs)))
    in H; [exact H|].
  intros instr acc acc' _. apply il_match_instr_collect.
Qed.

Lemma in_il_chunk_matches m scan instr chunk :
  In m (il_chunk_matches scan instr chunk) <->
  m = ILConstantScanMatch scan instr chunk /\
  len chunk = size instr /\
  exists c, constant instr = Ok c /\ format_x c = flag_value chunk.
Proof.
  unfold il_chunk_matches.
  destruct (len chunk =? size instr) eqn:Hlen.
  - apply Z.eqb_eq in Hlen.
    destruct (constant instr) as [c|e] eqn:Hc.
    + destruct (format_x c =? flag_value chunk)%string eqn:Heq.
      * apply String.eqb_eq in Heq. cbn [In]. split.
        -- intros [<-|[]]. eauto.
        -- intros (-> & _). now left.
      * apply String.eqb_neq in Heq. cbn [In]. split; [tauto|].
        intros (_ & _ & c' & [= <-] & H). contradiction.
    + cbn [In]. split; [tauto|]. intros (_ & _ & c' & H & _). discriminate.
  - apply Z.eqb_neq in Hlen. cbn [In]. split; [tauto|]. tauto.
Qed.

(** The rendering of the constant of a match is that of its chunk. *)
Lemma il_scan_match_rendering
      (scanconfigs : list ScanConfig)
      (mlil_instructions : list MediumLevelILInstruction)
      (results : list ScanMatch)
      (scan : ScanConfig) (instr : MediumLevelILInstruction)
      (chunk : list string) :
  run_il_constant_scans scanconfigs mlil_instructions = Ok results ->
  In (ILConstantScanMatch scan instr chunk) results ->
  exists c, constant instr = Ok c /\ format_x c = flag_value chunk.
Proof.
  intros Hrun Hin. apply run_il_constant_scans_collect in Hrun. subst results.
  apply in_flat_map in Hin as (i & _ & Hm). unfold il_instr_matches in Hm.
  destruct (1 <? size i); [|destruct Hm].
  apply in_flat_map in Hm as (s & _ & Hm).
  apply in_flat_map in Hm as (ch & _ & Hm).
  now apply in_il_chunk_matches in Hm as ([= -> -> ->] & _ & Hc).
Qed.

(** X1: a match is in the result of the IL scan exactly when its scan
    definition is a static, enabled one of the configuration, its
    instruction a constant node of the stream wider than one byte, its
    chunk one of the chunks built for that width with as many flags as the
    node has bytes, and the rendering of the constant that of the chunk. *)
Theorem il_scan_match_iff
        (scanconfigs : list ScanConfig)
        (mlil_instructions : list MediumLevelILInstruction)
        (results : list ScanMatch)
        (scan : ScanConfig) (instr : MediumLevelILInstruction)
        (chunk : list string) :
  run_il_constant_scans scanconfigs mlil_instructions = Ok results ->
  (In (ILConstantScanMatch scan instr chunk) results <->
   In scan scanconfigs /\ type scan = "static" /\ enabled scan = true /\
   In instr (flat_map recurse_retrieve_consts mlil_instructions) /\
   1 < size instr /\
   In chunk (chunks (flags scan) (size instr)) /\
   len chunk = size instr /\
   exists c, constant instr = Ok c /\ format_x c = flag_value chunk).
Proof.
  intros Hrun. apply run_il_constant_scans_collect in Hrun. subst results.
  rewrite in_flat_map. unfold il_instr_matches. split.
  - intros (i & Hi & Hm).
    destruct (1 <? size i) eqn:Hsz; [|destruct Hm].
    apply Z.ltb_lt in Hsz.
    apply in_flat_map in Hm as (s & Hs & Hm).
    apply in_flat_map in Hm as (ch & Hch & Hm).
    apply in_il_chunk_matches in Hm as ([= -> -> ->] & Hlen & Hc).
    unfold static_scans in Hs. apply filter_In in Hs as (Hin & Hstat).
    apply andb_true_iff in Hstat as (Ht & He).
    apply String.eqb_eq in Ht. auto 10.
  - intros (Hin & Ht & He & Hi & Hsz & Hch & Hlen & Hc).
    exists instr. split; [exact Hi|].
    apply Z.ltb_lt in Hsz. rewrite Hsz.
    apply in_flat_map. exists scan. split.
    + apply filter_In. split; [exact Hin|].
      rewrite He, andb_true_r. now apply String.eqb_eq.
    + apply in_flat_map. exists chunk. split; [exact Hch|].
      apply in_il_chunk_matches. auto.
Qed.

Lemma il_scan_match_iff_witness :
  In (ILConstantScanMatch test_const_11 const_11223344 (flags test_const_11))
     [ILConstantScanMatch test_const_11 const_11223344 (flags test_const_11)]
  <->
  In test_const_11 [signature_config; disabled_config; test_const_11] /\
  type test_const_11 = "static" /\ enabled test_const_11 = true /\
  In const_11223344 (flat_map recurse_retrieve_consts [assign const_11223344]) /\
  1 < size const_11223344 /\
  In (flags test_const_11) (chunks (flags test_const_11) (size const_11223344)) /\
  len (flags test_const_11) = size const_11223344 /\
  exists c, constant const_11223344 = Ok c /\
            format_x c = flag_value (flags test_const_11).
Proof.
  apply (il_scan_match_iff [signature_config; disabled_config; test_const_11]
                           [assign const_11223344]).
  reflexivity.
Defined.

(** ** The renderings the IL scan compares *)

Lemma string_of_uint_chars (d : Hexadecimal.uint) :
  string_forallb format_x_char (HexadecimalString.NilEmpty.string_of_uint d)
  = true.
Proof. induction d; cbn; auto. Qed.

Lemma nilzero_string_of_uint_chars (d : Hexadecimal.uint) :
  string_forallb format_x_char (HexadecimalString.NilZero.string_of_uint d)
  = true.
Proof.
  destruct d; [reflexivity|..];
    match goal with
    | |- context [HexadecimalString.NilZero.string_of_uint ?x] =>
        exact (string_of_uint_chars x)
    end.
Qed.

Lemma format_x_chars (c : Z) : string_forallb format_x_char (format_x c) = true.
Proof.
  unfold format_x. destruct c as [|p|p]; cbn [Z.to_hex_int].
  - reflexivity.
  - apply nilzero_string_of_uint_chars.
  - cbn [HexadecimalString.NilZero.string_of_int string_forallb].
    apply nilzero_string_of_uint_chars.
Qed.

Lemma string_forallb_impl (p q : ascii -> bool) (s : string) :
  (forall c, p c = true -> q c = true) ->
  string_forallb p s = true -> string_forallb q s = true.
Proof.
  intros Hpq. induction s as [|c s IH]; cbn; [reflexivity|].
  intros H. apply andb_true_iff in H as [Hc Hs].
  now rewrite (Hpq c Hc), IH.
Qed.

Lemma string_forallb_join_inv (p : ascii -> bool) (parts : list string) :
  string_forallb p (join parts) = true ->
  forall s, In s parts -> string_forallb p s = true.
Proof.
  unfold join. induction parts as [|s parts IH]; intros H t Ht; [destruct Ht|].
  destruct parts as [|s' parts].
  - destruct Ht as [<-|[]]. exact H.
  - change (String.concat "" (s :: s' :: parts))
      with (s ++ "" ++ String.concat "" (s' :: parts))%string in H.
    rewrite !string_forallb_append in H.
    apply andb_true_iff in H as [Hs Hrest]. cbn in Hrest.
    destruct Ht as [<-|Ht]; [exact Hs | now apply IH].
Qed.

(** What [replace] leaves of a string tells all of it but the characters
    of the prefixes removed. *)
Lemma replace_0x_forallb_inv (p : ascii -> bool) (s : string) :
  p "0"%char = true -> p "x"%char = true ->
  string_forallb p (replace_0x s) = true -> string_forallb p s = true.
Proof.
  intros H0 Hx.
  enough (H : (string_forallb p (replace_0x s) = true ->
               string_forallb p s = true) /\
              (forall c, string_forallb p (replace_0x (String c s)) = true ->
                         string_forallb p (String c s) = true))
    by apply H.
  induction s as [|c' s [IHa IHb]]; split.
  - auto.
  - auto.
  - apply IHb.
  - intros c.
    change (replace_0x (String c (String c' s)))
      with (if ((c =? "0") && (c' =? "x"))%char then replace_0x s
            else String c (replace_0x (String c' s))).
    destruct ((c =? "0") && (c' =? "x"))%char eqn:Hpre.
    + apply andb_true_iff in Hpre as [Hc Hc'].
      apply Ascii.eqb_eq in Hc as ->. apply Ascii.eqb_eq in Hc' as ->.
      intros H. cbn [string_forallb]. now rewrite H0, Hx, IHa.
    + change (string_forallb p (String c (replace_0x (String c' s))))
        with (p c && string_forallb p (replace_0x (String c' s))).
      intros H. apply andb_true_iff in H as [Hpc Hrest].
      change (string_forallb p (String c (String c' s)))
        with (p c && string_forallb p (String c' s)).
      now rewrite Hpc, IHb.
Qed.

Lemma matchable_not_upper (c : ascii) :
  matchable_char c = true -> negb (is_upper c) = true.
Proof.
  unfold matchable_char, format_x_char, is_upper.
  destruct (Ascii.eqb_spec c "x") as [->|_]; [reflexivity|].
  rewrite orb_false_r.
  set (n := Z.of_N (N_of_ascii c)). intros H.
  apply negb_true_iff, andb_false_iff.
  apply orb_true_iff in H as [H|H];
    [apply orb_true_iff in H as [H|H];
     apply andb_true_iff in H as [H1 H2];
     apply Z.leb_le in H1; apply Z.leb_le in H2
    |apply Z.eqb_eq in H];
    (destruct (Z_le_gt_dec 65 n);
     [right; apply Z.leb_gt; lia | left; apply Z.leb_gt; lia]).
Qed.

(** X2: every flag of a chunk the IL scan has matched is written with
    lower-case hexadecimal digits, the [x] of the prefix and minus signs
    only; a flag with an upper-case letter, as ["0xAB"] or ["0X1f"], is in
    no match. *)
Theorem il_scan_matches_lower_case
        (scanconfigs : list ScanConfig)
        (mlil_instructions : list MediumLevelILInstruction)
        (results : list ScanMatch)
        (scan : ScanConfig) (instr : MediumLevelILInstruction)
        (chunk : list string) (tok : string) :
  run_il_constant_scans scanconfigs mlil_instructions = Ok results ->
  In (ILConstantScanMatch scan instr chunk) results ->
  In tok chunk ->
  string_forallb matchable_char tok = true /\
  string_forallb (fun c => negb (is_upper c)) tok = true.
Proof.
  intros Hrun Hin Htok.
  destruct (il_scan_match_rendering _ _ _ scan instr chunk Hrun Hin)
    as (c & _ & Heq).
  assert (H : string_forallb matchable_char tok = true).
  { apply replace_0x_forallb_inv; [reflexivity | reflexivity |].
    apply string_forallb_impl with (p := format_x_char);
      [intros ch Hch; unfold matchable_char; now rewrite Hch|].
    apply (string_forallb_join_inv _ (map replace_0x chunk)).
    - fold (flag_value chunk). rewrite <- Heq. apply format_x_chars.
    - now apply in_map. }
  split; [exact H|].
  revert H. apply string_forallb_impl. apply matchable_not_upper.
Qed.

Lemma il_scan_matches_lower_case_witness :
  run_il_constant_scans [upper_config; test_const_11]
                        [assign const_abcdef12; assign const_11223344]
  = Ok [ILConstantScanMatch test_const_11 const_11223344 (flags test_const_11)]
  /\ string_forallb matchable_char "0x11" = true
  /\ string_forallb (fun c => negb (is_upper c)) "0x11" = true.
Proof.
  split; [reflexivity|].
  apply (il_scan_matches_lower_case
           [upper_config; test_const_11]
           [assign const_abcdef12; assign const_11223344]
           [ILConstantScanMatch test_const_11 const_11223344 (flags test_const_11)]
           test_const_11 const_11223344 (flags test_const_11) "0x11" eq_refl).
  - left. reflexivity.
  - left. reflexivity.
Defined.

(** The digits of a positive number do not start with a zero. *)
Lemma to_hex_uint_no_leading_zero (p : positive) (l : Hexadecimal.uint) :
  Pos.to_hex_uint p <> Hexadecimal.D0 l.
Proof.
  intros E.
  pose proof (HexadecimalPos.Unsigned.to_of (Pos.to_hex_uint p)) as Hto.
  rewrite HexadecimalPos.Unsigned.of_to in Hto. cbn [N.to_hex_uint] in Hto.
  rewrite E in Hto. rewrite HexadecimalFacts.unorm_D0 in Hto.
  unfold Hexadecimal.unorm in Hto.
  destruct (Hexadecimal.nzhead l) eqn:Hnz;
    try (symmetry in Hto; rewrite <- Hnz in Hto;
         now apply HexadecimalFacts.nzhead_nonzero in Hto).
  injection Hto as ->.
  apply (HexadecimalPos.Unsigned.to_uint_nonzero p). exact E.
Qed.

(** Only zero is rendered with a zero in front. *)
Lemma format_x_leading_zero (c : Z) (s : string) :
  format_x c = String "0" s -> c = 0 /\ s = "".
Proof.
  unfold format_x. destruct c as [|p|p]; cbn.
  - intros [= <-]. auto.
  - pose proof (to_hex_uint_no_leading_zero p) as Hnz.
    pose proof (HexadecimalPos.Unsigned.to_uint_nonnil p) as Hnil.
    destruct (Pos.to_hex_uint p); cbn; try discriminate.
    + contradiction.
    + exfalso. now apply (Hnz u).
  - discriminate.
Qed.

(** X3: a chunk whose rendering starts with the digit 0 and goes on is in
    no match of the IL scan, whatever the constants of the stream are: the
    constant is rendered without leading zeros. *)
Theorem il_scan_no_leading_zero
        (scanconfigs : list ScanConfig)
        (mlil_instructions : list MediumLevelILInstruction)
        (results : list ScanMatch)
        (scan : ScanConfig) (instr : MediumLevelILInstruction)
        (chunk : list string) (d : ascii) (s : string) :
  run_il_constant_scans scanconfigs mlil_instructions = Ok results ->
  flag_value chunk = String "0" (String d s) ->
  ~ In (ILConstantScanMatch scan instr chunk) results.
Proof.
  intros Hrun Hzero Hin.
  destruct (il_scan_match_rendering _ _ _ scan instr chunk Hrun Hin)
    as (c & _ & Heq).
  rewrite Hzero in Heq. apply format_x_leading_zero in Heq as [_ Heq].
  discriminate.
Qed.

Lemma il_scan_no_leading_zero_witness :
  ~ In (ILConstantScanMatch test_const const_01020304 (flags test_const)) [].
Proof.
  apply (il_scan_no_leading_zero [test_const] [assign const_01020304] []
           test_const const_01020304 (flags test_const) "1" "020304");
    reflexivity.
Defined.

(** ** The value of a matched chunk *)

Lemma hex_value_string_of_uint (d : Hexadecimal.uint) (acc : Z) :
  hex_value acc (HexadecimalString.NilEmpty.string_of_uint d)
  = Some (uint_value acc d).
Proof.
  revert acc. induction d; intros acc; [reflexivity|..];
    cbn [HexadecimalString.NilEmpty.string_of_uint hex_value uint_value];
    match goal with
    | |- context [hex_digit ?c] =>
        let v := eval vm_compute in (hex_digit c) in
        change (hex_digit c) with v
    end; cbv iota beta; apply IHd.
Qed.

Lemma of_hex_uint_acc_value (d : Hexadecimal.uint) (acc : positive) :
  Z.pos (Pos.of_hex_uint_acc d acc) = uint_value (Z.pos acc) d.
Proof.
  revert acc. induction d; intros acc;
    cbn [Pos.of_hex_uint_acc uint_value]; [reflexivity|..];
    rewrite IHd; f_equal; lia.
Qed.

Lemma of_hex_uint_value (d : Hexadecimal.uint) :
  Z.of_N (Pos.of_hex_uint d) = uint_value 0 d.
Proof.
  induction d; cbn [Pos.of_hex_uint]; [reflexivity | exact IHd |..];
    cbn [Z.of_N]; rewrite of_hex_uint_acc_value; reflexivity.
Qed.

(** [int(_, 16)] reads back what ['{:x}'.format] writes of a number that is
    not negative. *)
Lemma hex_value_format_x (c : Z) : 0 <= c -> hex_value 0 (format_x c) = Some c.
Proof.
  intros Hc. unfold format_x. destruct c as [|p|p]; [reflexivity| |lia].
  cbn [Z.to_hex_int HexadecimalString.NilZero.string_of_int].
  pose proof (HexadecimalPos.Unsigned.to_uint_nonnil p) as Hnil.
  pose proof (HexadecimalPos.Unsigned.of_to p) as Hof.
  apply (f_equal Z.of_N) in Hof. rewrite of_hex_uint_value in Hof.
  cbn [Z.of_N] in Hof. rewrite <- Hof.
  unfold HexadecimalString.NilZero.string_of_uint.
  destruct (Pos.to_hex_uint p) eqn:E; [contradiction|..];
    rewrite <- E; apply hex_value_string_of_uint.
Qed.

Lemma hex_value_negative (c : Z) : c < 0 -> hex_value 0 (format_x c) = None.
Proof. destruct c; intros H; try lia. reflexivity. Qed.

Lemma hex_value_append (s t : string) (acc : Z) :
  hex_value acc (s ++ t)%string =
  match hex_value acc s with
  | Some v => hex_value v t
  | None => None
  end.
Proof.
  revert acc. induction s as [|c s IH]; intros acc; cbn; [reflexivity|].
  destruct (hex_digit c); [apply IH | reflexivity].
Qed.

Lemma hex_digit_not_x (c : ascii) (v : Z) :
  hex_digit c = Some v -> (c =? "x")%char = false.
Proof.
  intros H. destruct (Ascii.eqb_spec c "x") as [->|]; [discriminate H | reflexivity].
Qed.

(** The rendering of a flag of two digits is its two digits, and counts
    for one byte. *)
Lemma two_digit_byte_value (tok : string) (b acc : Z) :
  two_digit_byte tok = Some b ->
  hex_value acc (replace_0x tok) = Some (256 * acc + b).
Proof.
  unfold two_digit_byte.
  destruct tok as [|c0 [|cx [|d1 [|d2 [|c rest]]]]]; try discriminate.
  destruct ((c0 =? "0") && (cx =? "x"))%char eqn:Hpre; [|discriminate].
  destruct (hex_digit d1) as [v1|] eqn:H1; [|discriminate].
  destruct (hex_digit d2) as [v2|] eqn:H2; [|discriminate].
  intros [= <-].
  change (replace_0x (String c0 (String cx (String d1 (String d2 "")))))
    with (if ((c0 =? "0") && (cx =? "x"))%char
          then if ((d1 =? "0") && (d2 =? "x"))%char then ""
               else String d1 (String d2 "")
          else String c0 (replace_0x (String cx (String d1 (String d2 ""))))).
  rewrite Hpre, (hex_digit_not_x d2 v2 H2), andb_false_r.
  cbn [hex_value]. rewrite H1, H2. f_equal. destruct v1; lia.
Qed.

Lemma two_digit_bytes_value (chunk : list string) (bytes : list Z) (acc : Z) :
  two_digit_bytes chunk = Some bytes ->
  hex_value acc (flag_value chunk)
  = Some (fold_left (fun a b => 256 * a + b) bytes acc).
Proof.
  unfold flag_value, join. revert bytes acc.
  induction chunk as [|tok chunk IH]; intros bytes acc; cbn [two_digit_bytes].
  - intros [= <-]. reflexivity.
  - destruct (two_digit_byte tok) as [b|] eqn:Hb; [|discriminate].
    destruct (two_digit_bytes chunk) as [bs|] eqn:Hbs; [|discriminate].
    intros [= <-]. cbn [fold_left map].
    destruct chunk as [|tok' chunk].
    + cbn [two_digit_bytes] in Hbs. injection Hbs as <-.
      cbn [String.concat map fold_left]. now apply two_digit_byte_value.
    + change (String.concat "" (replace_0x tok :: map replace_0x (tok' :: chunk)))
        with (replace_0x tok ++ "" ++
              String.concat "" (map replace_0x (tok' :: chunk)))%string.
      rewrite hex_value_append, (two_digit_byte_value tok b acc Hb).
      cbn [String.append]. now apply IH.
Qed.

(** X4: when the flags of a matched chunk are written as [0x] and two
    digits, the constant of the match is the number whose bytes, the most
    significant first, are the flags of the chunk. *)
Theorem il_scan_match_big_endian
        (scanconfigs : list ScanConfig)
        (mlil_instructions : list MediumLevelILInstruction)
        (results : list ScanMatch)
        (scan : ScanConfig) (instr : MediumLevelILInstruction)
        (chunk : list string) (bytes : list Z) :
  run_il_constant_scans scanconfigs mlil_instructions = Ok results ->
  In (ILConstantScanMatch scan instr chunk) results ->
  two_digit_bytes chunk = Some bytes ->
  constant instr = Ok (big_endian bytes).
Proof.
  intros Hrun Hin Hbytes.
  destruct (il_scan_match_rendering _ _ _ scan instr chunk Hrun Hin)
    as (c & Hc & Heq).
  rewrite Hc. f_equal.
  pose proof (two_digit_bytes_value chunk bytes 0 Hbytes) as Hval.
  rewrite <- Heq in Hval. fold (big_endian bytes) in Hval.
  destruct (Z_lt_le_dec c 0) as [Hneg|Hpos].
  - rewrite (hex_value_negative c Hneg) in Hval. discriminate.
  - rewrite (hex_value_format_x c Hpos) in Hval. now injection Hval.
Qed.

Lemma il_scan_match_big_endian_witness :
  constant const_11223344 = Ok (big_endian [0x11; 0x22; 0x33; 0x44]).
Proof.
  apply (il_scan_match_big_endian
           [test_const_11] [assign const_11223344]
           [ILConstantScanMatch test_const_11 const_11223344 (flags test_const_11)]
           test_const_11 const_11223344 (flags test_const_11)
           [0x11; 0x22; 0x33; 0x44] eq_refl).
  - left. reflexivity.
  - reflexivity.
Defined.

(** ** What the reader returns *)

Lemma is_valid_offset_false (bv : BinaryView) (o : Z) :
  is_valid_offset bv o = false <-> bv_byte bv o = None.
Proof.
  unfold is_valid_offset. destruct (bv_byte bv o); split; congruence.
Qed.

(** X5: [next_byte] raises nothing.  It returns the byte at the first
    readable offset from the cursor on and leaves the cursor behind it; or
    [None], with the cursor at or beyond the end of the view, when no
    offset from the cursor to the end can be read. *)
Theorem next_byte_first_readable (bv : BinaryView) (offset : Z) :
  (exists b p,
      next_byte bv offset = Ok (Some b, p + 1) /\
      offset <= p < bv_end bv /\ bv_byte bv p = Some b /\
      forall o, offset <= o < p -> unreadable bv o) \/
  (exists offset',
      next_byte bv offset = Ok (None, offset') /\
      offset <= offset' /\ bv_end bv <= offset' /\
      forall o, offset <= o < bv_end bv -> unreadable bv o).
Proof.
  pose proof (skip_invalid_ge bv offset) as Hge.
  destruct (next_byte_spec bv offset) as [(o' & Hn & He & ->)|(b & Hn & Hb & He)].
  - right. exists (skip_invalid bv offset).
    apply Z.leb_le in He. repeat split; auto.
    intros o Ho. apply is_valid_offset_false.
    apply (skip_invalid_skipped bv offset). lia.
  - left. exists b, (skip_invalid bv offset).
    apply Z.leb_gt in He. repeat split; auto.
    intros o Ho. apply is_valid_offset_false.
    now apply (skip_invalid_skipped bv offset).
Qed.

Section SeekFacts.

Variable bv : BinaryView.

Lemma seek_loop_found (fuel : nat) (max_dist : Z) (allow_null : bool)
      (dist offset b count offset' : Z) :
  seek_loop bv fuel max_dist allow_null dist offset = (Some b, count, offset') ->
  dist < count /\
  bv_byte bv (offset' - 1) = Some b /\ offset' <= bv_end bv /\
  (b <> 0 \/ allow_null = true) /\
  forall o, offset <= o < offset' - 1 -> passed_over bv o.
Proof.
  revert dist offset.
  induction fuel as [|fuel IH]; intros dist offset; cbn [seek_loop];
    [discriminate|].
  destruct (eof bv offset) eqn:He; cbn [negb andb]; [discriminate|].
  destruct (dist <=? max_dist); [|discriminate].
  apply Z.leb_gt in He. unfold read.
  destruct (bv_byte bv offset) as [byte|] eqn:Hb.
  - destruct (byte =? 0) eqn:Hz; cbn [negb orb].
    + apply Z.eqb_eq in Hz. subst byte. destruct allow_null.
      * intros [= <- <- <-].
        replace (offset + 1 - 1) with offset by lia.
        repeat split; auto; try lia.
      * intros H. apply IH in H as (H1 & H2 & H3 & H4 & H5).
        repeat split; auto; try lia.
        intros o Ho. destruct (Z.eq_dec o offset) as [->|];
          [now left | apply H5; lia].
    + apply Z.eqb_neq in Hz. intros [= <- <- <-].
      replace (offset + 1 - 1) with offset by lia.
      repeat split; auto; try lia.
  - intros H. apply IH in H as (H1 & H2 & H3 & H4 & H5).
    repeat split; auto; try lia.
    intros o Ho. destruct (Z.eq_dec o offset) as [->|];
      [now right | apply H5; lia].
Qed.

Lemma seek_loop_not_found (fuel : nat) (max_dist : Z) (allow_null : bool)
      (dist offset count offset' : Z) :
  max_dist + 1 - dist <= Z.of_nat fuel ->
  seek_loop bv fuel max_dist allow_null dist offset = (None, count, offset') ->
  (eof bv offset' = true \/ max_dist < count) /\
  forall o, offset <= o < offset' -> passed_over bv o.
Proof.
  revert dist offset.
  induction fuel as [|fuel IH]; intros dist offset Hfuel; cbn [seek_loop].
  - intros [= <- <-]. split; [right; lia | intros o Ho; lia].
  - destruct (eof bv offset) eqn:He; cbn [negb andb];
      [intros [= <- <-]; split; [now left | intros o Ho; lia]|].
    destruct (dist <=? max_dist) eqn:Hd;
      [|intros [= <- <-]; apply Z.leb_gt in Hd;
        split; [right; lia | intros o Ho; lia]].
    unfold read.
    destruct (bv_byte bv offset) as [byte|] eqn:Hb.
    + destruct (byte =? 0) eqn:Hz; cbn [negb orb]; [|discriminate].
      apply Z.eqb_eq in Hz. subst byte.
      destruct allow_null; [discriminate|].
      intros H. apply IH in H as (H1 & H2); [|lia].
      split; [exact H1|].
      intros o Ho. destruct (Z.eq_dec o offset) as [->|];
        [now left | apply H2; lia].
    + intros H. apply IH in H as (H1 & H2); [|lia].
      split; [exact H1|].
      intros o Ho. destruct (Z.eq_dec o offset) as [->|];
        [now right | apply H2; lia].
Qed.

Lemma seek_loop_eof (fuel : nat) (max_dist : Z) (allow_null : bool)
      (dist offset : Z) :
  eof bv offset = true ->
  seek_loop bv fuel max_dist allow_null dist offset = (None, dist, offset).
Proof.
  intros He. destruct fuel; cbn [seek_loop]; [reflexivity|].
  now rewrite He.
Qed.

End SeekFacts.

(** X6: the byte [seek_next_byte] returns is the byte before the cursor it
    leaves; it is not null unless nulls are allowed; the count is at least
    one and the cursor has moved by the count from the first readable
    offset; and every byte passed over on the way is null or unreadable. *)
Theorem seek_next_byte_found
        (bv : BinaryView) (max_dist : Z) (allow_null : bool)
        (offset b count offset' : Z) :
  seek_next_byte bv max_dist allow_null offset = (Some b, count, offset') ->
  1 <= count /\
  offset' = skip_invalid bv offset + count /\
  bv_byte bv (offset' - 1) = Some b /\ offset' <= bv_end bv /\
  (b <> 0 \/ allow_null = true) /\
  (forall o, offset <= o < skip_invalid bv offset -> unreadable bv o) /\
  (forall o, skip_invalid bv offset <= o < offset' - 1 -> passed_over bv o).
Proof.
  intros H. pose proof (seek_next_byte_spec _ _ _ _ _ _ _ H) as (Hoff & _).
  unfold seek_next_byte in H. apply seek_loop_found in H as (H1 & H2 & H3 & H4 & H5).
  repeat split; auto; try lia.
  intros o Ho. apply is_valid_offset_false.
  now apply (skip_invalid_skipped bv offset).
Qed.

Lemma seek_next_byte_found_witness :
  seek_next_byte view_holes 15 false 10 = (Some 0x7F, 2, 14) /\
  skip_invalid view_holes 10 = 12 /\
  bv_byte view_holes 13 = Some 0x7F.
Proof.
  split; [reflexivity|]. split; [reflexivity|].
  apply (seek_next_byte_found view_holes 15 false 10 0x7F 2 14 eq_refl).
Defined.

(** X7: [seek_next_byte] gives up only at the end of the view or when the
    count has passed the distance allowed (15, or 31 with nulls allowed),
    and all it has moved over is null or unreadable; called at the end of
    the view it counts nothing and leaves the cursor. *)
Theorem seek_next_byte_not_found
        (bv : BinaryView) (allow_null : bool) (offset count offset' : Z) :
  seek_next_byte bv 15 allow_null offset = (None, count, offset') ->
  (eof bv offset' = true \/ count = if allow_null then 32 else 16) /\
  (forall o, offset <= o < offset' -> passed_over bv o) /\
  (eof bv offset = true -> count = 0 /\ offset' = offset).
Proof.
  intros H. pose proof (seek_next_byte_spec _ _ _ _ _ _ _ H) as (Hoff & H0 & Hmax & _).
  pose proof (skip_invalid_ge bv offset) as Hge.
  pose proof H as Hloop. unfold seek_next_byte in Hloop.
  apply seek_loop_not_found in Hloop as (H1 & H2);
    [|destruct allow_null; cbn; lia].
  split; [|split].
  - destruct H1 as [H1|H1]; [now left | right].
    destruct allow_null; cbn in H1, Hmax; lia.
  - intros o Ho. destruct (Z_lt_le_dec o (skip_invalid bv offset)).
    + right. apply is_valid_offset_false.
      apply (skip_invalid_skipped bv offset). lia.
    + apply H2. lia.
  - intros He. unfold seek_next_byte in H.
    rewrite (skip_invalid_eof bv offset He) in H.
    rewrite seek_loop_eof in H by exact He.
    injection H as <- <-; auto.
Qed.

Lemma seek_next_byte_not_found_witness :
  seek_next_byte view_holes 15 false 14 = (None, 0, 15) /\ eof view_holes 15 = true.
Proof.
  split; [reflexivity|].
  destruct (seek_next_byte_not_found view_holes false 14 0 15 eq_refl)
    as ([H|H] & _); [exact H | discriminate H].
Defined.

(** ** What the data scan returns *)

Lemma map_result_length {A B} (f : A -> result B) (l : list A) (ys : list B) :
  map_result f l = Ok ys -> List.length ys = List.length l.
Proof.
  revert ys. induction l as [|x l IH]; intros ys; cbn [map_result].
  - now intros [= <-].
  - destruct (f x) as [y|]; cbn [rbind]; [|discriminate].
    destruct (map_result f l) as [ys'|]; cbn [rbind]; [|discriminate].
    intros [= <-]. cbn. now rewrite (IH ys' eq_refl).
Qed.

Lemma map_result_cons {A B} (f : A -> result B) (x : A) (l : list A)
      (ys : list B) :
  map_result f (x :: l) = Ok ys <->
  exists y ys', f x = Ok y /\ map_result f l = Ok ys' /\ ys = y :: ys'.
Proof.
  cbn [map_result]. split.
  - destruct (f x) as [y|]; cbn [rbind]; [|discriminate].
    destruct (map_result f l) as [ys'|]; cbn [rbind]; [|discriminate].
    intros [= <-]. eauto.
  - intros (y & ys' & -> & -> & ->). reflexivity.
Qed.

Lemma no_gap_byte (bv : BinaryView) (o0 o : Z) :
  no_gap_from bv o0 -> o0 <= o < bv_end bv -> passed_over bv o ->
  bv_byte bv o = Some 0.
Proof.
  intros Hgap Ho [H|H]; [exact H|].
  apply is_valid_offset_false in H. rewrite Hgap in H by lia. discriminate.
Qed.

Section DataMatchFacts.

Variable bv : BinaryView.

(** Null bytes up to a byte that is not null: the seek that allows no
    nulls counts them all and returns that byte. *)
Lemma seek_loop_zeros (max_dist v : Z) (k : nat) :
  v <> 0 ->
  forall (fuel : nat) (dist offset : Z),
    (forall o, offset <= o < offset + Z.of_nat k -> bv_byte bv o = Some 0) ->
    bv_byte bv (offset + Z.of_nat k) = Some v ->
    offset + Z.of_nat k < bv_end bv ->
    dist + Z.of_nat k <= max_dist -> (k < fuel)%nat ->
    seek_loop bv fuel max_dist false dist offset
    = (Some v, dist + Z.of_nat k + 1, offset + Z.of_nat k + 1).
Proof.
  intros Hv. induction k as [|k IH]; intros fuel dist offset Hz Hb He Hd Hf;
    (destruct fuel as [|fuel]; [lia|]); cbn [seek_loop].
  - replace (offset + Z.of_nat 0) with offset in * by lia.
    replace (eof bv offset) with false by (symmetry; apply Z.leb_gt; lia).
    replace (dist <=? max_dist) with true by (symmetry; apply Z.leb_le; lia).
    cbn [negb andb]. unfold read. rewrite Hb.
    replace (v =? 0) with false by (symmetry; now apply Z.eqb_neq).
    cbn [negb orb]. do 2 f_equal; lia.
  - replace (eof bv offset) with false by (symmetry; apply Z.leb_gt; lia).
    replace (dist <=? max_dist) with true by (symmetry; apply Z.leb_le; lia).
    cbn [negb andb]. unfold read. rewrite (Hz offset) by lia.
    cbn [Z.eqb negb orb].
    rewrite (IH fuel (dist + 1) (offset + 1)).
    + do 2 f_equal; lia.
    + intros o Ho. apply Hz. lia.
    + rewrite <- Hb. f_equal. lia.
    + lia.
    + lia.
    + lia.
Qed.

(** The seek for the flag [v] from the offset after [p] finds it where
    [found_after] puts it. *)
Lemma seek_next_byte_finds (p v q : Z) :
  p < q <= p + 16 -> q < bv_end bv -> bv_byte bv q = Some v ->
  (v = 0 -> q = p + 1) ->
  (forall o, p < o < q -> bv_byte bv o = Some 0) ->
  seek_next_byte bv 15 (v =? 0) (p + 1) = (Some v, q - p, q + 1).
Proof.
  intros Hq He Hb H0 Hz. destruct (Z.eq_dec v 0) as [->|Hv].
  - rewrite (H0 eq_refl) in *. cbn [Z.eqb].
    rewrite (seek_next_byte_null_first bv 15 (p + 1) 0);
      [do 2 f_equal; lia | lia | apply Z.leb_gt; lia | exact Hb].
  - replace (v =? 0) with false by (symmetry; now apply Z.eqb_neq).
    unfold seek_next_byte. rewrite skip_invalid_valid.
    + rewrite (seek_loop_zeros 15 v (Z.to_nat (q - p - 1)) Hv).
      * do 2 f_equal; lia.
      * intros o Ho. apply Hz. lia.
      * rewrite <- Hb. f_equal. lia.
      * lia.
      * lia.
      * lia.
    + apply not_false_iff_true. intros Hn. apply is_valid_offset_false in Hn.
      destruct (Z.eq_dec (p + 1) q) as [Heq|Hne].
      * rewrite Heq in Hn. congruence.
      * rewrite Hz in Hn by lia. discriminate.
Qed.

(** What a seek that returns a byte has gone through, in a view without
    gaps. *)
Lemma seek_next_byte_path (o0 v off b count off' : Z) :
  no_gap_from bv o0 -> o0 <= off ->
  seek_next_byte bv 15 (v =? 0) off = (Some b, count, off') ->
  off' = off + count /\ 1 <= count <= 16 /\ off' - 1 < bv_end bv /\
  bv_byte bv (off' - 1) = Some b /\
  (v = 0 -> count = 1) /\
  (b = 0 -> v = 0) /\
  (forall o, off <= o < off' - 1 -> bv_byte bv o = Some 0).
Proof.
  intros Hgap Hle H.
  pose proof (seek_next_byte_spec _ _ _ _ _ _ _ H) as (H2 & _ & Hmax & Hnull).
  pose proof H as Hl. unfold seek_next_byte in Hl.
  apply seek_loop_found in Hl as (H1 & H3 & H4 & _ & H7).
  rewrite (skip_invalid_no_gap bv o0 off Hgap Hle) in H2, H7.
  assert (Hone : v = 0 -> count = 1).
  { intros Hv. apply Z.eqb_eq in Hv. rewrite Hv in H.
    pose proof (seek_next_byte_null_count _ _ _ _ _ _ H) as Hc. lia. }
  assert (Hcount : count <= 16).
  { destruct (Z.eq_dec v 0) as [Hv|Hv]; [specialize (Hone Hv); lia|].
    apply Z.eqb_neq in Hv. rewrite Hv in Hmax. lia. }
  split; [exact H2|]. split; [lia|]. split; [lia|]. split; [exact H3|].
  split; [exact Hone|]. split.
  - intros ->. specialize (Hnull eq_refl). now apply Z.eqb_eq in Hnull.
  - intros o Ho. apply (no_gap_byte bv o0); auto. lia.
Qed.

Lemma fetch_flag_eq (flag : string) (tb : list Z) (br off : Z)
      (acc' : list Z * Z * Z) :
  fetch_flag bv flag (tb, br, off) = Ok acc' ->
  exists v tbyte count off1,
    int16 flag = Ok v /\
    seek_next_byte bv 15 (v =? 0) off = (tbyte, count, off1) /\
    acc' = (match tbyte with Some b => tb ++ [b] | None => tb end,
            br + count, off1).
Proof.
  unfold fetch_flag. destruct (int16 flag) as [v|]; cbn [rbind]; [|discriminate].
  destruct (seek_next_byte bv 15 (v =? 0) off) as [[tbyte count] off1] eqn:Hs.
  intros [= <-]. exists v, tbyte, count, off1. auto.
Qed.

(** The bytes the lookahead has fetched, when they are the flags, lie
    where [found_after] says. *)
Lemma fetch_flags_path (o0 : Z) (toks : list string) :
  no_gap_from bv o0 ->
  forall (tb0 : list Z) (br0 off0 : Z) (tb : list Z) (br off : Z),
    o0 <= off0 ->
    for_each toks (fetch_flag bv) (tb0, br0, off0) = Ok (tb, br, off) ->
    exists found,
      tb = tb0 ++ found /\
      (List.length found <= List.length toks)%nat /\
      (forall vals, map_result int16 toks = Ok vals -> found = vals ->
                    found_after bv (off0 - 1) vals).
Proof.
  intros Hgap. induction toks as [|tok toks IH];
    intros tb0 br0 off0 tb br off Hle; cbn [for_each].
  - intros [= <- _ _]. exists []. rewrite app_nil_r.
    repeat split; auto. intros vals [= <-] _. exact I.
  - destruct (fetch_flag bv tok (tb0, br0, off0)) as [acc1|] eqn:H1;
      cbn [rbind]; [|discriminate].
    apply fetch_flag_eq in H1 as (v & tbyte & count & off1 & Hv & Hs & ->).
    intros Hrest.
    pose proof (seek_next_byte_spec _ _ _ _ _ _ _ Hs) as (Hoff & Hc & _).
    pose proof (skip_invalid_ge bv off0) as Hge.
    apply IH in Hrest as (found & -> & Hlen & Hpath); [|lia].
    destruct tbyte as [b|].
    + exists (b :: found). rewrite <- app_assoc.
      split; [reflexivity|]. split; [cbn [List.length]; lia|].
      intros vals Hvals Heq.
      apply map_result_cons in Hvals as (v' & vals' & Hv' & Hvals' & ->).
      rewrite Hv in Hv'. injection Hv' as <-. injection Heq as -> ->.
      destruct (seek_next_byte_path o0 v off0 v count off1 Hgap Hle Hs)
        as (P1 & P2 & P3 & P4 & P5 & _ & P7).
      exists (off1 - 1). split; [lia|]. split; [lia|]. split; [exact P4|].
      split; [intros Hz; specialize (P5 Hz); lia|].
      split; [intros o Ho; apply P7; lia|].
      now apply Hpath.
    + exists found.
      split; [reflexivity|]. split; [cbn [List.length]; lia|].
      intros vals Hvals Heq. apply map_result_length in Hvals.
      rewrite <- Heq in Hvals. cbn [List.length] in Hvals. lia.
Qed.

(** Where the flags lie as [found_after] says, the lookahead fetches them
    all. *)
Lemma fetch_flags_found (toks : list string) :
  forall (vals tb0 : list Z) (br0 p : Z),
    map_result int16 toks = Ok vals -> found_after bv p vals ->
    exists br off,
      for_each toks (fetch_flag bv) (tb0, br0, p + 1) = Ok (tb0 ++ vals, br, off).
Proof.
  induction toks as [|tok toks IH]; intros vals tb0 br0 p Hvals Hpath;
    cbn [for_each].
  - injection Hvals as <-. rewrite app_nil_r. eauto.
  - apply map_result_cons in Hvals as (v & vals' & Hv & Hvals' & ->).
    destruct Hpath as (q & Hq & He & Hb & H0 & Hz & Hpath).
    assert (H1 : fetch_flag bv tok (tb0, br0, p + 1)
                 = Ok (tb0 ++ [v], br0 + (q - p), q + 1)).
    { unfold fetch_flag. rewrite Hv. cbn [rbind].
      now rewrite (seek_next_byte_finds p v q Hq He Hb H0 Hz). }
    rewrite H1. cbn [rbind].
    destruct (IH vals' (tb0 ++ [v]) (br0 + (q - p)) q Hvals' Hpath)
      as (br & off & ->).
    rewrite <- app_assoc. eauto.
Qed.

(** A trigger hit in a view without gaps: the cursor is put back, and the
    match is recorded at the offset of the trigger exactly when the other
    flags are found after it. *)
Lemma investigate_match (o0 : Z) (scan : ScanConfig) (tok : string)
      (results : list ScanMatch) (offset : Z)
      (results' : list ScanMatch) (offset' : Z) :
  no_gap_from bv o0 -> o0 <= offset ->
  hd_error (flags scan) = Some tok ->
  investigate bv scan (results, offset) = Ok (results', offset') ->
  offset' = offset /\
  ((results' = results ++ [DataConstantScanMatch scan (offset - 1)] /\
    exists vals, map_result int16 (tl (flags scan)) = Ok vals /\
                 found_after bv (offset - 1) vals) \/
   (results' = results /\
    ~ exists vals, map_result int16 (tl (flags scan)) = Ok vals /\
                   found_after bv (offset - 1) vals)).
Proof.
  intros Hgap Hle Hhd. unfold investigate.
  destruct (flags scan) as [|tok' rest] eqn:Hflags; [discriminate|].
  cbn [tl]. replace (len (tok' :: rest) - 1) with (len rest)
    by (unfold len; cbn [List.length]; lia).
  destruct (for_each rest (fetch_flag bv) ([], 0, offset))
    as [[[tb br] off]|] eqn:Hf; cbn [rbind]; [|discriminate].
  pose proof (fetch_flags_spec bv _ _ _ _ _ Hf) as (_ & _ & Hback).
  specialize (Hback o0 Hgap Hle).
  pose proof (fetch_flags_path o0 rest Hgap _ _ _ _ _ _ Hle Hf)
    as (found & Hfound & _ & Hpath).
  rewrite app_nil_l in Hfound. subst found.
  assert (Hnot : forall vals, map_result int16 rest = Ok vals ->
                              found_after bv (offset - 1) vals -> tb = vals).
  { intros vals Hvals Hp.
    destruct (fetch_flags_found rest vals [] 0 (offset - 1) Hvals Hp)
      as (br2 & off2 & Hf2).
    replace (offset - 1 + 1) with offset in Hf2 by lia.
    rewrite Hf in Hf2. now injection Hf2 as -> _ _. }
  destruct (len tb =? len rest) eqn:Hlen.
  - destruct (map_result int16 rest) as [expected|] eqn:Hexp; cbn [rbind];
      [|discriminate].
    destruct (list_eq_dec Z.eq_dec tb expected) as [->|Hne].
    + intros [= <- <-]. split; [lia|]. left. split.
      * do 3 f_equal. lia.
      * exists expected. split; [reflexivity|]. now apply Hpath.
    + intros [= <- <-]. split; [lia|]. right. split; [reflexivity|].
      intros (vals & [= <-] & Hp). apply Hne. now apply Hnot.
  - cbn [rbind]. intros [= <- <-]. split; [lia|]. right. split; [reflexivity|].
    intros (vals & Hvals & Hp). pose proof (Hnot vals Hvals Hp) as ->.
    apply map_result_length in Hvals. apply Z.eqb_neq in Hlen.
    unfold len in Hlen. lia.
Qed.

Lemma check_trigger_match (o0 b : Z) (entry : string * ScanConfig)
      (results : list ScanMatch) (offset : Z)
      (results' : list ScanMatch) (offset' : Z) :
  no_gap_from bv o0 -> o0 <= offset ->
  hd_error (flags (snd entry)) = Some (fst entry) ->
  bv_byte bv (offset - 1) = Some b ->
  check_trigger bv b entry (results, offset) = Ok (results', offset') ->
  offset' = offset /\
  ((results' = results ++ [DataConstantScanMatch (snd entry) (offset - 1)] /\
    data_match_at bv (snd entry) (offset - 1)) \/
   (results' = results /\ ~ data_match_at bv (snd entry) (offset - 1))).
Proof.
  intros Hgap Hle Hhd Hb. destruct entry as [trigger scan]. cbn [fst snd] in *.
  assert (Hflags : flags scan = trigger :: tl (flags scan)).
  { destruct (flags scan); [discriminate|]. now injection Hhd as ->. }
  unfold check_trigger.
  destruct (int16 trigger) as [t|] eqn:Ht; cbn [rbind]; [|discriminate].
  destruct (b =? t) eqn:Hbt.
  - apply Z.eqb_eq in Hbt. subst t. intros H.
    apply (investigate_match o0 scan trigger) in H
      as (-> & [(-> & vals & Hvals & Hp)|(-> & Hno)]); auto.
    + split; [reflexivity|]. left. split; [reflexivity|].
      exists b, vals. repeat split; auto.
      rewrite Hflags. apply map_result_cons. eauto.
    + split; [reflexivity|]. right. split; [reflexivity|].
      intros (t' & vals & Hm & _ & Hp). apply Hno. exists vals.
      rewrite Hflags in Hm.
      apply map_result_cons in Hm as (y & ys & _ & Hys & [= _ <-]). auto.
  - intros [= <- <-]. split; [reflexivity|]. right. split; [reflexivity|].
    intros (t' & vals & Hm & Hb' & _).
    rewrite Hflags in Hm.
    apply map_result_cons in Hm as (y & ys & Hy & _ & [= <- _]).
    rewrite Ht in Hy. injection Hy as <-.
    rewrite Hb in Hb'. injection Hb' as <-.
    apply Z.eqb_neq in Hbt. congruence.
Qed.

Lemma check_triggers_match (o0 b : Z) (entries : list (string * ScanConfig)) :
  no_gap_from bv o0 -> entries_aligned entries ->
  forall (results : list ScanMatch) (offset : Z)
         (results' : list ScanMatch) (offset' : Z),
    o0 <= offset -> bv_byte bv (offset - 1) = Some b ->
    for_each entries (check_trigger bv b) (results, offset)
    = Ok (results', offset') ->
    offset' = offset /\
    forall m, In m results' <->
              In m results \/
              exists scan, In scan (map snd entries) /\
                           m = DataConstantScanMatch scan (offset - 1) /\
                           data_match_at bv scan (offset - 1).
Proof.
  intros Hgap Hal. induction Hal as [|entry entries Hhd _ IH];
    intros results offset results' offset' Hle Hb; cbn [for_each].
  - intros [= <- <-]. split; [reflexivity|]. intros m. split; [auto|].
    intros [H|(scan & [] & _)]. exact H.
  - destruct (check_trigger bv b entry (results, offset)) as [[r1 o1]|] eqn:H1;
      cbn [rbind]; [|discriminate].
    intros Hrest.
    apply (check_trigger_match o0) in H1 as (-> & Hcase); auto.
    apply IH in Hrest as (-> & Hin); auto.
    split; [reflexivity|]. intros m. rewrite Hin. cbn [map In].
    destruct Hcase as [(-> & Hm)|(-> & Hno)].
    + rewrite in_app_iff. cbn [In]. split.
      * intros [[H|[<-|[]]]|(scan & Hs & Heq & Hd)]; eauto 7.
      * intros [H|(scan & [<-|Hs] & -> & Hd)]; eauto 7.
    + split.
      * intros [H|(scan & Hs & Heq & Hd)]; eauto 7.
      * intros [H|(scan & [<-|Hs] & -> & Hd)]; [auto|contradiction|eauto 7].
Qed.

(** The loop adds only matches of its scan definitions, at offsets from the
    cursor on where their flags are found, whoever cancels it. *)
Lemma scan_loop_matches_sound (cancelled : nat -> bool)
      (entries : list (string * ScanConfig)) (td : Z) (fuel : nat) :
  entries_aligned entries ->
  forall (results : list ScanMatch) (offset : Z) (n : nat)
         (results' : list ScanMatch) (offset' : Z) (n' : nat),
    no_gap_from bv offset ->
    scan_loop bv cancelled fuel entries td (results, offset, n)
    = Ok (results', offset', n') ->
    forall m, In m results' ->
              In m results \/
              exists scan a, In scan (map snd entries) /\
                             offset <= a < bv_end bv /\
                             m = DataConstantScanMatch scan a /\
                             data_match_at bv scan a.
Proof.
  intros Hal. induction fuel as [|fuel IH];
    intros results offset n results' offset' n' Hgap; cbn [scan_loop].
  - intros [= <- _ _] m Hm. now left.
  - destruct (eof bv offset) eqn:He; [intros [= <- _ _] m Hm; now left|].
    destruct (cancelled n); [intros [= <- _ _] m Hm; now left|].
    apply Z.leb_gt in He.
    destruct (scan_round bv entries td (results, offset))
      as [[[r o]|[r o]]|] eqn:Hr; cbn [rbind]; [| |discriminate].
    + intros Hloop m Hm.
      apply scan_round_continue in Hr as (b & Hb & _ & Hfor).
      rewrite (skip_invalid_no_gap bv offset offset Hgap) in Hb, Hfor by lia.
      apply (check_triggers_match offset) in Hfor as (-> & Hin); auto;
        [|lia|now replace (offset + 1 - 1) with offset by lia].
      apply IH with (m := m) in Hloop; auto;
        [|intros p Hp; apply Hgap; lia].
      destruct Hloop as [H|(scan & a & Hs & Ha & Heq & Hd)].
      * apply Hin in H as [H|(scan & Hs & Heq & Hd)]; [now left|].
        right. exists scan, (offset + 1 - 1). repeat split; auto; lia.
      * right. exists scan, a. repeat split; auto; lia.
    + intros [= <- _ _] m Hm.
      apply scan_round_break in Hr as (-> & _). now left.
Qed.

(** A loop nobody cancels visits every offset up to the end of the view
    and records each place where the flags of a scan definition are
    found. *)
Lemma scan_loop_matches_complete
      (entries : list (string * ScanConfig)) (td : Z) (fuel : nat) :
  entries_aligned entries ->
  forall (results : list ScanMatch) (offset : Z) (n : nat)
         (results' : list ScanMatch) (offset' : Z) (n' : nat),
    no_gap_from bv offset ->
    bv_end bv - offset <= Z.of_nat fuel ->
    scan_loop bv never_cancelled fuel entries td (results, offset, n)
    = Ok (results', offset', n') ->
    forall scan a, In scan (map snd entries) ->
                   offset <= a < bv_end bv ->
                   data_match_at bv scan a ->
                   In (DataConstantScanMatch scan a) results'.
Proof.
  intros Hal. induction fuel as [|fuel IH];
    intros results offset n results' offset' n' Hgap Hfuel; cbn [scan_loop].
  - intros _ scan a _ Ha. lia.
  - destruct (eof bv offset) eqn:He;
      [apply Z.leb_le in He; intros _ scan a _ Ha; lia|].
    apply Z.leb_gt in He. unfold never_cancelled at 1.
    destruct (scan_round bv entries td (results, offset))
      as [[[r o]|[r o]]|] eqn:Hr; cbn [rbind]; [| |discriminate].
    + intros Hloop scan a Hs Ha Hd.
      apply scan_round_continue in Hr as (b & Hb & _ & Hfor).
      rewrite (skip_invalid_no_gap bv offset offset Hgap) in Hb, Hfor by lia.
      apply (check_triggers_match offset) in Hfor as (-> & Hin); auto;
        [|lia|now replace (offset + 1 - 1) with offset by lia].
      destruct (Z.eq_dec a offset) as [->|Hne].
      * apply scan_loop_extends in Hloop as ([more ->] & _).
        apply in_app_iff. left. apply Hin. right. exists scan.
        replace (offset + 1 - 1) with offset by lia. auto.
      * apply (IH _ _ _ _ _ _) with (scan := scan) (a := a) in Hloop; auto;
          [intros p Hp; apply Hgap; lia | lia | lia].
    + intros _ scan a _ Ha.
      apply scan_round_break in Hr as (_ & -> & Hend).
      rewrite (skip_invalid_no_gap bv offset offset Hgap) in Hend by lia.
      apply Z.leb_le in Hend. lia.
Qed.

End DataMatchFacts.

Lemma in_static_scans (scanconfigs : list ScanConfig) (scan : ScanConfig) :
  In scan (static_scans scanconfigs) <->
  In scan scanconfigs /\ type scan = "static" /\ enabled scan = true.
Proof.
  unfold static_scans. rewrite filter_In, andb_true_iff, String.eqb_eq.
  tauto.
Qed.

(** X8: in a view without unmapped offsets from the cursor on, every match
    the data scan returns, cancelled or not, is a data match of a static,
    enabled scan definition at an offset from the cursor to the end of the
    view where its flags are found: the first flag at that offset, each
    further flag within sixteen offsets of the one before with only null
    bytes between, a null flag at the next offset. *)
Theorem data_scan_match_sound
        (bv : BinaryView) (cancelled : nat -> bool)
        (scanconfigs : list ScanConfig) (offset : Z) (looks : nat)
        (results : list ScanMatch) (offset' : Z) (looks' : nat)
        (m : ScanMatch) :
  no_gap_from bv offset ->
  run_data_constant_scans bv cancelled scanconfigs offset looks
  = Ok (results, offset', looks') ->
  In m results ->
  exists scan address,
    m = DataConstantScanMatch scan address /\
    In scan scanconfigs /\ type scan = "static" /\ enabled scan = true /\
    offset <= address < bv_end bv /\
    data_match_at bv scan address.
Proof.
  intros Hgap Hrun Hm. unfold run_data_constant_scans in Hrun.
  destruct (map_result _ (static_scans scanconfigs)) as [triggers|] eqn:Htr;
    cbn [rbind] in Hrun; [|discriminate].
  destruct (triggers_aligned _ _ Htr) as [Hal Hsnd].
  apply (scan_loop_matches_sound bv cancelled _ _ _ Hal) with (m := m) in Hrun;
    auto.
  destruct Hrun as [[]|(scan & a & Hs & Ha & -> & Hd)].
  rewrite Hsnd in Hs. apply in_static_scans in Hs as (H1 & H2 & H3).
  exists scan, a. auto 7.
Qed.

Lemma data_scan_match_sound_witness :
  exists scan address,
    DataConstantScanMatch config_ab 0 = DataConstantScanMatch scan address /\
    In scan [config_ab; config_bb] /\ type scan = "static" /\
    enabled scan = true /\
    0 <= address < bv_end view_strided /\
    data_match_at view_strided scan address.
Proof.
  apply (data_scan_match_sound
           view_strided never_cancelled [config_ab; config_bb] 0 0
           [DataConstantScanMatch config_ab 0; DataConstantScanMatch config_bb 3;
            DataConstantScanMatch config_ab 5; DataConstantScanMatch config_bb 6]
           7 7%nat).
  - intros o H0 H1. change (bv_end view_strided) with 7 in H1.
    assert (Ho : o = 0 \/ o = 1 \/ o = 2 \/ o = 3 \/ o = 4 \/ o = 5 \/ o = 6)
      by lia.
    destruct Ho as [->|[->|[->|[->|[->|[->| ->]]]]]]; reflexivity.
  - reflexivity.
  - now left.
Defined.

(** X9: in such a view a data scan that nobody cancels misses nothing: it
    returns a match for every static, enabled scan definition at every
    offset from the cursor to the end of the view where its flags are
    found. *)
Theorem data_scan_match_complete
        (bv : BinaryView) (scanconfigs : list ScanConfig)
        (offset : Z) (looks : nat)
        (results : list ScanMatch) (offset' : Z) (looks' : nat)
        (scan : ScanConfig) (address : Z) :
  no_gap_from bv offset ->
  run_data_constant_scans bv never_cancelled scanconfigs offset looks
  = Ok (results, offset', looks') ->
  In scan scanconfigs -> type scan = "static" -> enabled scan = true ->
  offset <= address < bv_end bv ->
  data_match_at bv scan address ->
  In (DataConstantScanMatch scan address) results.
Proof.
  intros Hgap Hrun Hin Hty Hen Ha Hd. unfold run_data_constant_scans in Hrun.
  destruct (map_result _ (static_scans scanconfigs)) as [triggers|] eqn:Htr;
    cbn [rbind] in Hrun; [|discriminate].
  destruct (triggers_aligned _ _ Htr) as [Hal Hsnd].
  apply (scan_loop_matches_complete bv _ _ _ Hal _ _ _ _ _ _ Hgap) with
    (scan := scan) (a := address) in Hrun; auto; [lia|].
  rewrite Hsnd. apply in_static_scans. auto.
Qed.

Lemma data_scan_match_complete_witness :
  In (DataConstantScanMatch config_ab 0)
     [DataConstantScanMatch config_ab 0; DataConstantScanMatch config_bb 3;
      DataConstantScanMatch config_ab 5; DataConstantScanMatch config_bb 6].
Proof.
  apply (data_scan_match_complete
           view_strided [config_ab; config_bb] 0 0 _ 7 7%nat config_ab 0).
  - intros o H0 H1. change (bv_end view_strided) with 7 in H1.
    assert (Ho : o = 0 \/ o = 1 \/ o = 2 \/ o = 3 \/ o = 4 \/ o = 5 \/ o = 6)
      by lia.
    destruct Ho as [->|[->|[->|[->|[->|[->| ->]]]]]]; reflexivity.
  - reflexivity.
  - now left.
  - reflexivity.
  - reflexivity.
  - change (bv_end view_strided) with 7. lia.
  - exists 0xAA, [0xBB]. split; [reflexivity|]. split; [reflexivity|].
    exists 3. split; [lia|]. split; [reflexivity|]. split; [reflexivity|].
    split; [discriminate|]. split; [|exact I].
    intros o Ho. assert (H : o = 1 \/ o = 2) by lia.
    destruct H as [-> | ->]; reflexivity.
Defined.

(** ** Symbols *)

(** X10: [apply_symbols] defines a symbol exactly for the data matches of
    scan definitions with match type [symbol] whose address is a valid
    offset, with the label of the scan definition; it logs an error exactly
    for those whose address is not valid; it does nothing else, and IL
    matches are passed over. *)
Theorem apply_symbols_events (bv : BinaryView) (results : list ScanMatch) :
  (forall address label,
      In (DefineUserSymbol address label) (apply_symbols bv results) <->
      exists scan, In (DataConstantScanMatch scan address) results /\
                   match_type scan = "symbol" /\ match_label scan = label /\
                   is_valid_offset bv address = true) /\
  (forall msg,
      In (LogError msg) (apply_symbols bv results) <->
      exists scan address,
        In (DataConstantScanMatch scan address) results /\
        match_type scan = "symbol" /\
        is_valid_offset bv address = false /\
        msg = ("Invalid address for symbol: " ++ format_d address)%string) /\
  forallb touches_symbols (apply_symbols bv results) = true /\
  apply_symbols bv (filter is_il_match results) = [].
Proof.
  unfold apply_symbols. repeat split.
  - intros H. apply in_flat_map in H as (m & Hm & H).
    destruct m as [scan a|]; [|destruct H].
    destruct (match_type scan =? "symbol")%string eqn:Hty; [|destruct H].
    apply String.eqb_eq in Hty. destruct H as [H|[]]. unfold set_symbol in H.
    destruct (is_valid_offset bv a) eqn:Hv; [|discriminate].
    injection H as <- <-. eauto.
  - intros (scan & Hm & Hty & <- & Hv). apply in_flat_map.
    exists (DataConstantScanMatch scan address). split; [exact Hm|].
    apply String.eqb_eq in Hty. rewrite Hty. left.
    unfold set_symbol. now rewrite Hv.
  - intros H. apply in_flat_map in H as (m & Hm & H).
    destruct m as [scan a|]; [|destruct H].
    destruct (match_type scan =? "symbol")%string eqn:Hty; [|destruct H].
    apply String.eqb_eq in Hty. destruct H as [H|[]]. unfold set_symbol in H.
    destruct (is_valid_offset bv a) eqn:Hv; [discriminate|].
    injection H as <-. eauto 7.
  - intros (scan & a & Hm & Hty & Hv & ->). apply in_flat_map.
    exists (DataConstantScanMatch scan a). split; [exact Hm|].
    apply String.eqb_eq in Hty. rewrite Hty. left.
    unfold set_symbol. now rewrite Hv.
  - apply forallb_forall. intros ev H. apply in_flat_map in H as (m & _ & H).
    destruct m as [scan a|]; [|destruct H].
    destruct (match_type scan =? "symbol")%string; [|destruct H].
    destruct H as [<-|[]]. unfold set_symbol.
    now destruct (is_valid_offset bv a).
  - induction results as [|[scan a|scan instr chunk] results IH];
      cbn [filter is_il_match flat_map app]; auto.
Qed.

(** The addresses of the data scan's matches, in a view without gaps, lie
    between the cursor and the end of the view. *)
Lemma data_scan_addresses_in_view
      (bv : BinaryView) (cancelled : nat -> bool)
      (scanconfigs : list ScanConfig) (offset : Z) (looks : nat)
      (results : list ScanMatch) (offset' : Z) (looks' : nat)
      (scan : ScanConfig) (address : Z) :
  no_gap_from bv offset ->
  run_data_constant_scans bv cancelled scanconfigs offset looks
  = Ok (results, offset', looks') ->
  In (DataConstantScanMatch scan address) results ->
  offset <= address < bv_end bv.
Proof.
  intros Hgap Hrun Hm. unfold run_data_constant_scans in Hrun.
  destruct (map_result _ (static_scans scanconfigs)) as [triggers|] eqn:Htr;
    cbn [rbind] in Hrun; [|discriminate].
  destruct (triggers_aligned _ _ Htr) as [Hal _].
  apply (scan_loop_matches_sound bv cancelled _ _ _ Hal)
    with (m := DataConstantScanMatch scan address) in Hrun; auto.
  destruct Hrun as [[]|(scan' & a & _ & Ha & [= _ ->] & _)]. exact Ha.
Qed.

(** X11: the data scan and [apply_symbols] together, in a view without
    unmapped offsets from the cursor on: every match of a scan definition
    with match type [symbol] gets its symbol defined, and no error is
    logged. *)
Theorem data_scan_symbols_defined
        (bv : BinaryView) (cancelled : nat -> bool)
        (scanconfigs : list ScanConfig) (offset : Z) (looks : nat)
        (results : list ScanMatch) (offset' : Z) (looks' : nat) :
  no_gap_from bv offset ->
  run_data_constant_scans bv cancelled scanconfigs offset looks
  = Ok (results, offset', looks') ->
  (forall scan address,
      In (DataConstantScanMatch scan address) results ->
      match_type scan = "symbol" ->
      In (DefineUserSymbol address (match_label scan))
         (apply_symbols bv results)) /\
  (forall msg, ~ In (LogError msg) (apply_symbols bv results)).
Proof.
  intros Hgap Hrun.
  assert (Hvalid : forall scan address,
             In (DataConstantScanMatch scan address) results ->
             is_valid_offset bv address = true).
  { intros scan address Hm.
    pose proof (data_scan_addresses_in_view _ _ _ _ _ _ _ _ _ _ Hgap Hrun Hm).
    apply Hgap; lia. }
  unfold apply_symbols. split.
  - intros scan address Hm Hty. apply in_flat_map.
    exists (DataConstantScanMatch scan address). split; [exact Hm|].
    apply String.eqb_eq in Hty. rewrite Hty. left.
    unfold set_symbol. now rewrite (Hvalid scan address Hm).
  - intros msg H. apply in_flat_map in H as (m & Hm & H).
    destruct m as [scan a|]; [|destruct H].
    destruct (match_type scan =? "symbol")%string; [|destruct H].
    destruct H as [H|[]]. unfold set_symbol in H.
    rewrite (Hvalid scan a Hm) in H. discriminate.
Qed.

Lemma data_scan_symbols_defined_witness :
  In (DefineUserSymbol 3 "B")
     (apply_symbols view_strided
        [DataConstantScanMatch config_ab 0; DataConstantScanMatch config_bb 3;
         DataConstantScanMatch config_ab 5; DataConstantScanMatch config_bb 6]).
Proof.
  refine (proj1 (data_scan_symbols_defined
                   view_strided never_cancelled [config_ab; config_bb] 0 0
                   [DataConstantScanMatch config_ab 0;
                    DataConstantScanMatch config_bb 3;
                    DataConstantScanMatch config_ab 5;
                    DataConstantScanMatch config_bb 6]
                   7 7%nat _ eq_refl) config_bb 3 _ eq_refl).
  - intros o H0 H1. change (bv_end view_strided) with 7 in H1.
    assert (Ho : o = 0 \/ o = 1 \/ o = 2 \/ o = 3 \/ o = 4 \/ o = 5 \/ o = 6)
      by lia.
    destruct Ho as [->|[->|[->|[->|[->|[->| ->]]]]]]; reflexivity.
  - right. now left.
Defined.

(** ** Exceptions of the data scan *)



(** A list comprehension whose items can only raise [e] raises [e] as soon
    as one of them does. *)
Lemma map_result_raises {A B} (f : A -> result B) (l : list A) (e : exn)
      (x : A) :
  (forall y e', f y = Raise e' -> e' = e) ->
  In x l -> f x = Raise e -> map_result f l = Raise e.
Proof.
  intros Honly. induction l as [|y l IH]; intros Hin Hx; [destruct Hin|].
  cbn [map_result]. destruct (f y) as [z|e1] eqn:Hy; cbn [rbind].
  - destruct Hin as [->|Hin]; [congruence|].
    now rewrite (IH Hin Hx).
  - now rewrite (Honly y e1 Hy).
Qed.


Section DataScanExceptions.

Variable bv : BinaryView.






End DataScanExceptions.



(** X13: one static, enabled scan definition without flags is enough for
    the data scan to raise [IndexError], whatever the view holds, wherever
    the cursor is and whoever cancels: no other scan definition gets a
    match. *)
Theorem data_scan_empty_flags
        (bv : BinaryView) (cancelled : nat -> bool)
        (scanconfigs : list ScanConfig) (offset : Z) (looks : nat)
        (scan : ScanConfig) :
  In scan scanconfigs -> type scan = "static" -> enabled scan = true ->
  flags scan = [] ->
  run_data_constant_scans bv cancelled scanconfigs offset looks
  = Raise IndexError.
Proof.
  intros Hin Hty Hen Hflags. unfold run_data_constant_scans.
  rewrite (map_result_raises _ (static_scans scanconfigs) IndexError scan);
    [reflexivity | | |].
  - intros y e'. destruct (hd_error (flags y)); cbn [of_option];
      [discriminate | now intros [= <-]].
  - apply in_static_scans. auto.
  - now rewrite Hflags.
Qed.

Lemma data_scan_empty_flags_witness :
  run_data_constant_scans view_4b never_cancelled [config_4b; empty_config] 0 0
  = Raise IndexError.
Proof.
  apply (data_scan_empty_flags view_4b never_cancelled
           [config_4b; empty_config] 0 0 empty_config);
    [right; now left | reflexivity | reflexivity | reflexivity].
Defined.

(** ** The cursor after the data scan *)

(** X14: a data scan that nobody cancels leaves the cursor at or beyond the
    end of the view, and nothing puts it back: a second scan from there
    returns no match, whatever the scan definitions find in the view. *)
Theorem data_scan_exhausts_reader
        (bv : BinaryView) (cancelled : nat -> bool)
        (scanconfigs : list ScanConfig) (offset : Z) (looks looks2 : nat)
        (results : list ScanMatch) (offset' : Z) (looks' : nat) :
  run_data_constant_scans bv never_cancelled scanconfigs offset looks
  = Ok (results, offset', looks') ->
  offset <= offset' /\ bv_end bv <= offset' /\
  run_data_constant_scans bv cancelled scanconfigs offset' looks2
  = Ok ([], offset', looks2).
Proof.
  unfold run_data_constant_scans.
  destruct (map_result _ (static_scans scanconfigs)) as [triggers|] eqn:Htr;
    cbn [rbind]; [|discriminate].
  intros Hrun.
  pose proof (scan_loop_extends _ _ _ _ _ _ _ _ _ _ _ Hrun) as (_ & Hle & _).
  apply scan_loop_reaches_end in Hrun; [|reflexivity|lia].
  split; [exact Hle|]. split; [now apply Z.leb_le|].
  destruct (Z.to_nat (bv_end bv - offset')); cbn [scan_loop]; [reflexivity|].
  now rewrite Hrun.
Qed.

Lemma data_scan_exhausts_reader_witness :
  run_data_constant_scans view_strided never_cancelled [config_ab; config_bb] 7 0
  = Ok ([], 7, 0%nat).
Proof.
  apply (data_scan_exhausts_reader
           view_strided never_cancelled [config_ab; config_bb] 0 0 0
           [DataConstantScanMatch config_ab 0; DataConstantScanMatch config_bb 3;
            DataConstantScanMatch config_ab 5; DataConstantScanMatch config_bb 6]
           7 7%nat eq_refl).
Defined.

(** ** What [run] does to the host *)

Lemma il_scan_il_only (scanconfigs : list ScanConfig)
      (mlil_instructions : list MediumLevelILInstruction)
      (results : list ScanMatch) :
  run_il_constant_scans scanconfigs mlil_instructions = Ok results ->
  forallb is_il_match results = true.
Proof.
  intros H. apply run_il_constant_scans_collect in H. subst results.
  apply forallb_forall. intros m Hm.
  apply in_flat_map in Hm as (instr & _ & Hm). unfold il_instr_matches in Hm.
  destruct (1 <? size instr); [|destruct Hm].
  apply in_flat_map in Hm as (scan & _ & Hm).
  apply in_flat_map in Hm as (chunk & _ & Hm).
  apply in_il_chunk_matches in Hm as (-> & _). reflexivity.
Qed.

Lemma apply_symbols_il (bv : BinaryView) (results : list ScanMatch) :
  forallb is_il_match results = true -> apply_symbols bv results = [].
Proof.
  unfold apply_symbols. induction results as [|[scan a|scan instr chunk] results IH];
    cbn [forallb is_il_match flat_map app andb]; auto. discriminate.
Qed.

(** Splits a log into the few events at its head and the rest. *)
Ltac split_log :=
  first [ exists []; split; reflexivity
        | eexists [_]; split; reflexivity
        | eexists [_; _]; split; reflexivity
        | eexists [_; _; _]; split; reflexivity ].

(** The results of [run] and what it has logged before it comes to them:
    the results are none or those of the IL scan, the log holds progress
    messages only, and one look at the flag was taken for each option. *)
Lemma run_stages (bv : BinaryView) (cancelled : nat -> bool)
      (static signature : bool) (scanconfigs : list ScanConfig)
      (mlil_instructions : list MediumLevelILInstruction)
      (results : list ScanMatch) (log : list Event) :
  run bv cancelled static signature scanconfigs mlil_instructions
  = Ok (results, log) ->
  (results = [] \/
   (static = true /\ cancelled O = false /\
    run_il_constant_scans scanconfigs mlil_instructions = Ok results)) /\
  exists log0,
    log = log0 ++ proceed_to_results bv cancelled results
                    (looks_before_results static signature) /\
    forallb (fun ev => negb (touches_symbols ev) && negb (shows ev)) log0 = true.
Proof.
  unfold run, run_signature_scans, looks_before_results.
  destruct static; cbn [negb rbind].
  - destruct (cancelled O) eqn:Hc0; cbn [negb rbind].
    + destruct signature; cbn [negb rbind];
        [destruct (cancelled 1%nat); cbn [negb rbind]|];
        rewrite ?app_nil_r; intros [= <- <-]; (split; [now left|]);
        split_log.
    + destruct (run_il_constant_scans scanconfigs mlil_instructions)
        as [found|] eqn:Hil; cbn [negb rbind]; [|discriminate].
      destruct signature; cbn [negb rbind];
        [destruct (cancelled 1%nat); cbn [negb rbind]|];
        rewrite ?app_nil_r; intros [= <- <-]; (split; [right; auto|]);
        split_log.
  - destruct signature; cbn [negb rbind];
      [destruct (cancelled O); cbn [negb rbind]|];
      rewrite ?app_nil_r; intros [= <- <-]; (split; [now left|]);
      split_log.
Qed.

(** X15: whatever the options, the view and the flag, the matches [run]
    ends with are none or exactly those of the IL scan, so [run] never
    defines a symbol and never logs an invalid address: no data match ever
    reaches [apply_symbols]. *)
Theorem run_results_il_only
        (bv : BinaryView) (cancelled : nat -> bool)
        (static signature : bool) (scanconfigs : list ScanConfig)
        (mlil_instructions : list MediumLevelILInstruction)
        (results : list ScanMatch) (log : list Event) :
  run bv cancelled static signature scanconfigs mlil_instructions
  = Ok (results, log) ->
  (results = [] \/
   (static = true /\ cancelled O = false /\
    run_il_constant_scans scanconfigs mlil_instructions = Ok results)) /\
  forallb is_il_match results = true /\
  forallb (fun ev => negb (touches_symbols ev)) log = true.
Proof.
  intros H. apply run_stages in H as (Hres & log0 & -> & Hlog0).
  assert (Hil : forallb is_il_match results = true).
  { destruct Hres as [->|(_ & _ & H)]; [reflexivity|].
    now apply il_scan_il_only in H. }
  split; [exact Hres|]. split; [exact Hil|].
  rewrite forallb_app. apply andb_true_iff. split.
  - rewrite forallb_forall in Hlog0. apply forallb_forall. intros ev Hev.
    apply Hlog0 in Hev. now apply andb_true_iff in Hev.
  - unfold proceed_to_results, display_results.
    rewrite (apply_symbols_il bv results Hil).
    destruct (cancelled (looks_before_results static signature));
      destruct (len results =? 0);
      destruct (cancelled (S (looks_before_results static signature)));
      reflexivity.
Qed.

Lemma run_results_il_only_witness :
  forallb is_il_match
          [ILConstantScanMatch test_const_11 const_11223344 (flags test_const_11)]
  = true.
Proof.
  apply (run_results_il_only
           view_4b never_cancelled true false [test_const_11]
           [assign const_11223344]
           [ILConstantScanMatch test_const_11 const_11223344 (flags test_const_11)]
           [LogProgress "Commencing data constant scans...";
            LogProgress "Commencing IL constant scans...";
            LogProgress "Scan found 1 match";
            ShowMarkdownReport
              [ILConstantScanMatch test_const_11 const_11223344
                                   (flags test_const_11)] false]
           eq_refl).
Defined.

(** X16: [run] ends by showing one thing at most.  With results it is the
    report of these results, the last thing it does; without results it is
    the message box, and only if the flag is not set at the last look;
    without results and with the flag set, nothing is shown. *)
Theorem run_shows_once
        (bv : BinaryView) (cancelled : nat -> bool)
        (static signature : bool) (scanconfigs : list ScanConfig)
        (mlil_instructions : list MediumLevelILInstruction)
        (results : list ScanMatch) (log : list Event) :
  run bv cancelled static signature scanconfigs mlil_instructions
  = Ok (results, log) ->
  let last_look := S (looks_before_results static signature) in
  exists log0,
    forallb (fun ev => negb (shows ev)) log0 = true /\
    log = log0 ++
          (if negb (len results =? 0)
           then [ShowMarkdownReport results (cancelled last_look)]
           else if cancelled last_look then []
           else [ShowMessageBox "CryptoScan results"
                                "No crypto constructs identified."]).
Proof.
  intros H last_look.
  pose proof (run_stages _ _ _ _ _ _ _ _ H) as (Hres & log0 & -> & Hlog0).
  assert (Hil : forallb is_il_match results = true).
  { destruct Hres as [->|(_ & _ & Hr)]; [reflexivity|].
    now apply il_scan_il_only in Hr. }
  assert (Hpre : forallb (fun ev => negb (shows ev)) log0 = true).
  { rewrite forallb_forall in Hlog0. apply forallb_forall. intros ev Hev.
    apply Hlog0 in Hev. now apply andb_true_iff in Hev. }
  unfold proceed_to_results, display_results. fold last_look.
  rewrite (apply_symbols_il bv results Hil).
  destruct (len results =? 0); cbn [negb].
  - destruct (cancelled last_look); cbn [negb].
    + exists (log0 ++
              if cancelled (looks_before_results static signature)
              then [LogProgress "Cancelling scan, checking for partial results..."]
              else []).
      rewrite app_nil_r. split; [|reflexivity].
      rewrite forallb_app, Hpre.
      now destruct (cancelled (looks_before_results static signature)).
    + exists (log0 ++
              (if cancelled (looks_before_results static signature)
               then [LogProgress "Cancelling scan, checking for partial results..."]
               else []) ++ [LogProgress "No scan results found"]).
      split.
      * rewrite !forallb_app, Hpre.
        now destruct (cancelled (looks_before_results static signature)).
      * rewrite <- !app_assoc. reflexivity.
  - eexists. split; [|rewrite !app_assoc; reflexivity].
    rewrite !forallb_app, Hpre.
    now destruct (cancelled (looks_before_results static signature)).
Qed.

Lemma run_shows_once_witness :
  exists log0,
    forallb (fun ev => negb (shows ev)) log0 = true /\
    [LogProgress "Commencing data constant scans...";
     LogProgress "Commencing IL constant scans...";
     LogProgress "Scan found 1 match";
     ShowMarkdownReport
       [ILConstantScanMatch test_const_11 const_11223344 (flags test_const_11)]
       true]
    = log0 ++
      [ShowMarkdownReport
         [ILConstantScanMatch test_const_11 const_11223344 (flags test_const_11)]
         true].
Proof.
  apply (run_shows_once
           view_4b cancelled_late true false [test_const_11]
           [assign const_11223344]
           [ILConstantScanMatch test_const_11 const_11223344 (flags test_const_11)]
           _ eq_refl).
Defined.

(** ** The order of the data scan's matches *)

Lemma data_addresses_app (r1 r2 : list ScanMatch) :
  data_addresses (r1 ++ r2) = data_addresses r1 ++ data_addresses r2.
Proof. unfold data_addresses. apply flat_map_app. Qed.

Lemma sorted_repeat_app (x : Z) (k : nat) (tail : list Z) :
  StronglySorted Z.le tail -> Forall (Z.le x) tail ->
  StronglySorted Z.le (repeat x k ++ tail) /\
  Forall (Z.le x) (repeat x k ++ tail).
Proof.
  intros Hs Hall. induction k as [|k [IH1 IH2]]; cbn [repeat app]; [auto|].
  split; constructor; auto; lia.
Qed.

Section DataOrderFacts.

Variable bv : BinaryView.

(** One round adds the offset of its byte, once for each entry that
    matches. *)
Lemma check_triggers_round (o0 b : Z) (entries : list (string * ScanConfig)) :
  no_gap_from bv o0 -> entries_aligned entries ->
  forall (results : list ScanMatch) (offset : Z)
         (results' : list ScanMatch) (offset' : Z),
    o0 <= offset -> bv_byte bv (offset - 1) = Some b ->
    for_each entries (check_trigger bv b) (results, offset)
    = Ok (results', offset') ->
    offset' = offset /\
    exists k, data_addresses results'
              = data_addresses results ++ repeat (offset - 1) k.
Proof.
  intros Hgap Hal. induction Hal as [|entry entries Hhd _ IH];
    intros results offset results' offset' Hle Hb; cbn [for_each].
  - intros [= <- <-]. split; [reflexivity|]. exists O.
    cbn [repeat]. now rewrite app_nil_r.
  - destruct (check_trigger bv b entry (results, offset)) as [[r1 o1]|] eqn:H1;
      cbn [rbind]; [|discriminate].
    intros Hrest.
    apply (check_trigger_match bv o0) in H1 as (-> & Hcase); auto.
    apply IH in Hrest as (-> & k & Hk); auto.
    split; [reflexivity|]. rewrite Hk.
    destruct Hcase as [(-> & _)|(-> & _)].
    + exists (S k). rewrite data_addresses_app, <- app_assoc. reflexivity.
    + exists k. reflexivity.
Qed.

Lemma scan_loop_ascending (cancelled : nat -> bool)
      (entries : list (string * ScanConfig)) (td : Z) (fuel : nat) :
  entries_aligned entries ->
  forall (results : list ScanMatch) (offset : Z) (n : nat)
         (results' : list ScanMatch) (offset' : Z) (n' : nat),
    no_gap_from bv offset ->
    scan_loop bv cancelled fuel entries td (results, offset, n)
    = Ok (results', offset', n') ->
    exists tail,
      data_addresses results' = data_addresses results ++ tail /\
      StronglySorted Z.le tail /\ Forall (Z.le offset) tail.
Proof.
  intros Hal.
  assert (Hnil : forall (results : list ScanMatch) (offset : Z),
             exists tail,
               data_addresses results = data_addresses results ++ tail /\
               StronglySorted Z.le tail /\ Forall (Z.le offset) tail).
  { intros results offset. exists []. rewrite app_nil_r.
    repeat split; constructor. }
  induction fuel as [|fuel IH];
    intros results offset n results' offset' n' Hgap; cbn [scan_loop].
  - intros [= <- _ _]. apply Hnil.
  - destruct (eof bv offset) eqn:He; [intros [= <- _ _]; apply Hnil|].
    destruct (cancelled n); [intros [= <- _ _]; apply Hnil|].
    apply Z.leb_gt in He.
    destruct (scan_round bv entries td (results, offset))
      as [[[r o]|[r o]]|] eqn:Hr; cbn [rbind]; [| |discriminate].
    + intros Hloop.
      apply scan_round_continue in Hr as (b & Hb & _ & Hfor).
      rewrite (skip_invalid_no_gap bv offset offset Hgap) in Hb, Hfor by lia.
      apply (check_triggers_round offset) in Hfor as (-> & k & Hk); auto;
        [|lia|now replace (offset + 1 - 1) with offset by lia].
      replace (offset + 1 - 1) with offset in Hk by lia.
      apply IH in Hloop as (tail & Ht & Hs & Hall);
        [|intros p Hp; apply Hgap; lia].
      exists (repeat offset k ++ tail).
      split; [now rewrite Ht, Hk, <- app_assoc|].
      apply sorted_repeat_app; [exact Hs|].
      eapply Forall_impl; [|exact Hall]. intros a Ha. cbn beta in Ha. lia.
    + intros [= <- _ _].
      apply scan_round_break in Hr as (-> & _). apply Hnil.
Qed.

End DataOrderFacts.

(** X17: in a view without unmapped offsets from the cursor on, the data
    scan returns its matches in ascending order of their addresses,
    cancelled or not. *)
Theorem data_scan_ascending
        (bv : BinaryView) (cancelled : nat -> bool)
        (scanconfigs : list ScanConfig) (offset : Z) (looks : nat)
        (results : list ScanMatch) (offset' : Z) (looks' : nat) :
  no_gap_from bv offset ->
  run_data_constant_scans bv cancelled scanconfigs offset looks
  = Ok (results, offset', looks') ->
  StronglySorted Z.le (data_addresses results).
Proof.
  intros Hgap Hrun. unfold run_data_constant_scans in Hrun.
  destruct (map_result _ (static_scans scanconfigs)) as [triggers|] eqn:Htr;
    cbn [rbind] in Hrun; [|discriminate].
  destruct (triggers_aligned _ _ Htr) as [Hal _].
  apply (scan_loop_ascending bv cancelled _ _ _ Hal) in Hrun
    as (tail & Ht & Hs & _); auto.
  cbn [data_addresses flat_map app] in Ht. fold (data_addresses results) in Ht.
  now rewrite Ht.
Qed.

Lemma data_scan_ascending_witness :
  StronglySorted Z.le [0; 3; 5; 6].
Proof.
  apply (data_scan_ascending
           view_strided never_cancelled [config_ab; config_bb] 0 0
           [DataConstantScanMatch config_ab 0; DataConstantScanMatch config_bb 3;
            DataConstantScanMatch config_ab 5; DataConstantScanMatch config_bb 6]
           7 7%nat).
  - intros o H0 H1. change (bv_end view_strided) with 7 in H1.
    assert (Ho : o = 0 \/ o = 1 \/ o = 2 \/ o = 3 \/ o = 4 \/ o = 5 \/ o = 6)
      by lia.
    destruct Ho as [->|[->|[->|[->|[->|[->| ->]]]]]]; reflexivity.
  - reflexivity.
Defined.

(** ** The progress messages *)

Lemma raise_trigger_spec (fuel : nat) :
  forall t p,
    p - t <= Z.of_nat fuel ->
    let t' := raise_trigger fuel t p in
    p <= t' /\ exists k, 0 <= k /\ t' = t + 5 * k /\ (0 < k -> t' - 5 < p).
Proof.
  induction fuel as [|fuel IH]; intros t p Hfuel; cbn [raise_trigger].
  - split; [lia|]. exists 0. lia.
  - destruct (t <? p) eqn:Hlt.
    + apply Z.ltb_lt in Hlt.
      destruct (IH (t + 5) p ltac:(lia)) as (H1 & k & Hk & Heq & Hmin).
      split; [exact H1|]. exists (k + 1). split; [lia|]. split; [lia|].
      intros _. destruct (Z.eq_dec k 0) as [->|Hne]; lia.
    + apply Z.ltb_ge in Hlt. split; [lia|]. exists 0. lia.
Qed.

(** X18: the update of the progress trigger in a round of the data scan.
    Below the trigger nothing is logged and the trigger stays.  From the
    trigger on, one message with the percentage is logged and the trigger
    goes up by a multiple of 5, at least one step, to the first such value
    that is not below the percentage. *)
Theorem progress_update_spec (progress_trigger percentage : Z) :
  let '(t', log) := progress_update progress_trigger percentage in
  (percentage < progress_trigger -> t' = progress_trigger /\ log = []) /\
  (progress_trigger <= percentage ->
   log = [LogProgress ("Scanning data for constants (" ++ format_d percentage
                       ++ "%)")%string] /\
   percentage <= t' /\
   exists k, 1 <= k /\ t' = progress_trigger + 5 * k /\
             (1 < k -> t' - 5 < percentage)).
Proof.
  unfold progress_update.
  destruct (progress_trigger <=? percentage) eqn:Hle.
  - apply Z.leb_le in Hle. split; [lia|]. intros _. split; [reflexivity|].
    destruct (raise_trigger_spec
                (Z.to_nat (percentage - (progress_trigger + 5)))
                (progress_trigger + 5) percentage ltac:(lia))
      as (H1 & k & Hk & Heq & Hmin).
    split; [exact H1|]. exists (k + 1). split; [lia|]. split; [lia|].
    intros Hk1. apply Hmin. lia.
  - apply Z.leb_gt in Hle. split; [auto|lia].
Qed.

Lemma progress_update_step (t p : Z) :
  let '(t', log) := progress_update t p in
  (t' = t /\ log = []) \/
  (t <= p /\ List.length log = 1%nat /\ t + 5 <= t').
Proof.
  unfold progress_update. destruct (t <=? p) eqn:Hle; [|now left].
  apply Z.leb_le in Hle. right.
  destruct (raise_trigger_spec (Z.to_nat (p - (t + 5))) (t + 5) p ltac:(lia))
    as (_ & k & Hk & Heq & _).
  split; [exact Hle|]. split; [reflexivity|]. lia.
Qed.

Lemma progress_rounds_count (bound : Z) (percentages : list Z) :
  Forall (fun p => p <= bound) percentages ->
  forall t, 5 * len (snd (progress_rounds t percentages))
            <= Z.max 0 (bound + 5 - t).
Proof.
  induction 1 as [|p rest Hp _ IH]; intros t; cbn [progress_rounds].
  - cbn. lia.
  - pose proof (progress_update_step t p) as Hstep.
    destruct (progress_update t p) as [t1 log1].
    specialize (IH t1). destruct (progress_rounds t1 rest) as [t2 log2].
    cbn [snd] in *. unfold len in *. rewrite length_app.
    destruct Hstep as [(-> & ->)|(Hle & Hlen & Hup)]; cbn [List.length] in *;
      [lia|]. rewrite Hlen. lia.
Qed.

(** X19: however many rounds the data scan takes, it logs at most twenty
    progress messages: the percentages of a scan that starts inside the
    view stay at or below 100, and every message puts the trigger, which
    starts at 5, up by 5 at least. *)
Theorem progress_messages_bounded
        (bv : BinaryView) (start_offset : Z) (offsets percentages : list Z) :
  bv_start bv <= bv_end bv ->
  bv_start bv <= start_offset ->
  Forall (fun offset => offset <= bv_end bv) offsets ->
  map_result (fun offset =>
                percentage offset start_offset (bv_end bv - bv_start bv))
             offsets = Ok percentages ->
  len (snd (progress_rounds 5 percentages)) <= 20.
Proof.
  intros Hview Hstart Hoff Hmap.
  assert (Hall : Forall (fun p => p <= 100) percentages).
  { revert percentages Hmap.
    induction Hoff as [|o offsets Ho _ IH]; intros percentages Hmap.
    - injection Hmap as <-. constructor.
    - apply map_result_cons in Hmap as (p & ps & Hp & Hps & ->).
      constructor; [|now apply IH].
      unfold percentage in Hp.
      destruct (bv_end bv - bv_start bv =? 0) eqn:Htd; [discriminate|].
      apply Z.eqb_neq in Htd. injection Hp as <-.
      apply Z.div_le_upper_bound; [lia|nia]. }
  pose proof (progress_rounds_count 100 percentages Hall 5). lia.
Qed.

Lemma progress_messages_bounded_witness :
  progress_rounds 5 [14; 28; 42; 57; 71; 85; 100]
  = (100,
     [LogProgress "Scanning data for constants (14%)";
      LogProgress "Scanning data for constants (28%)";
      LogProgress "Scanning data for constants (42%)";
      LogProgress "Scanning data for constants (57%)";
      LogProgress "Scanning data for constants (71%)";
      LogProgress "Scanning data for constants (85%)";
      LogProgress "Scanning data for constants (100%)"]) /\
  len (snd (progress_rounds 5 [14; 28; 42; 57; 71; 85; 100])) <= 20.
Proof.
  split; [reflexivity|].
  apply (progress_messages_bounded view_strided 0 [1; 2; 3; 4; 5; 6; 7]).
  - cbn. lia.
  - cbn. lia.
  - repeat constructor; cbn; lia.
  - reflexivity.
Defined.
